(** * Write-ahead log of the xv6 file system with a checksum block (log.c)

    Shallow embedding of [src/xv6/log.c].  The buffer cache and the block
    device are modelled by two maps from block numbers to block contents:
    [cache] is what [bread] returns (the in-memory buffers, including the
    blocks dirtied by [log_write]) and [disk] is what survives a crash.
    [bwrite] copies a cached block to the disk.  Every [bread], [bwrite] and
    [cprintf] is recorded in a trace.  [panic] is the [Halt] outcome of a
    small state-and-error monad.

    The constants [BSIZE] (fs.h), [LOGSIZE] and [MAXOPBLOCKS] (param.h) are
    section variables: every definition and theorem is generic in them. *)

From Stdlib Require Import ZArith List String Bool Lia Permutation.
Import ListNotations.
Open Scope Z_scope.

(** ** Blocks, events, the log structure and the machine *)

(** [uchar data[BSIZE]]: the byte at each offset. *)
Definition block := Z -> Z.

Definition zero_block : block := fun _ => 0.

Inductive event :=
| EvRead (b : Z)
| EvWrite (b : Z) (data : block)
| EvPrint (msg : string) (args : list Z).

(** [struct log] together with its [struct logheader lh]; the array
    [lh.block] is a map from indices to block numbers. *)
Record log := mk_log {
  lock_held : bool;
  start : Z;
  size : Z;
  outstanding : Z;
  committing : bool;
  dev : Z;
  checksum : Z;
  lh_n : Z;
  lh_block : Z -> Z
}.

(** The zero-initialised global [struct log log]. *)
Definition log0 : log := mk_log false 0 0 0 false 0 0 0 (fun _ => 0).

Definition upd {A} (f : Z -> A) (k : Z) (v : A) : Z -> A :=
  fun x => if Z.eqb x k then v else f x.

Definition set_lock (l : log) (h : bool) : log :=
  mk_log h (start l) (size l) (outstanding l) (committing l) (dev l)
         (checksum l) (lh_n l) (lh_block l).
Definition set_outstanding (l : log) (o : Z) : log :=
  mk_log (lock_held l) (start l) (size l) o (committing l) (dev l)
         (checksum l) (lh_n l) (lh_block l).
Definition set_checksum (l : log) (c : Z) : log :=
  mk_log (lock_held l) (start l) (size l) (outstanding l) (committing l)
         (dev l) c (lh_n l) (lh_block l).
Definition set_n (l : log) (n : Z) : log :=
  mk_log (lock_held l) (start l) (size l) (outstanding l) (committing l)
         (dev l) (checksum l) n (lh_block l).
Definition set_block (l : log) (i b : Z) : log :=
  mk_log (lock_held l) (start l) (size l) (outstanding l) (committing l)
         (dev l) (checksum l) (lh_n l) (upd (lh_block l) i b).
Definition set_committing (l : log) (c : bool) : log :=
  mk_log (lock_held l) (start l) (size l) (outstanding l) c (dev l)
         (checksum l) (lh_n l) (lh_block l).

Record machine := mk_machine {
  lg : log;
  cache : Z -> block;
  disk : Z -> block;
  dirty : Z -> bool;     (** [B_DIRTY] flag of the cached buffers *)
  trace : list event
}.

(** At boot the buffer cache holds nothing that is not on disk. *)
Definition boot (d : Z -> block) : machine :=
  mk_machine log0 d d (fun _ => false) [].

(** ** A state and error monad *)

Inductive outcome (A : Type) :=
| Done (a : A) (m : machine)
| Halt (msg : string) (m : machine).
Arguments Done {A}.
Arguments Halt {A}.

Definition M (A : Type) := machine -> outcome A.

Definition ret {A} (a : A) : M A := fun m => Done a m.
Definition bind {A B} (c : M A) (f : A -> M B) : M B :=
  fun m => match c m with
           | Done a m' => f a m'
           | Halt s m' => Halt s m'
           end.

Notation "x <- c1 ;; c2" := (bind c1 (fun x => c2))
  (at level 61, c1 at next level, right associativity).
Notation "c1 ;; c2" := (bind c1 (fun _ => c2))
  (at level 61, right associativity).

Definition panic {A} (s : string) : M A := fun m => Halt s m.

Definition get_log : M log := fun m => Done (lg m) m.
Definition set_log (l : log) : M unit :=
  fun m => Done tt (mk_machine l (cache m) (disk m) (dirty m) (trace m)).

Definition emit (e : event) : M unit :=
  fun m => Done tt (mk_machine (lg m) (cache m) (disk m) (dirty m)
                               (trace m ++ [e])).
Definition cprintf (s : string) (args : list Z) : M unit := emit (EvPrint s args).

(** [bread]: the cached contents of a block. *)
Definition bread (b : Z) : M block :=
  fun m => Done (cache m b)
             (mk_machine (lg m) (cache m) (disk m) (dirty m)
                         (trace m ++ [EvRead b])).

(** In-place change of the data of a held buffer. *)
Definition buf_store (b : Z) (d : block) : M unit :=
  fun m => Done tt (mk_machine (lg m) (upd (cache m) b d) (disk m) (dirty m)
                               (trace m)).

(** [bwrite]: the buffer goes to disk. *)
Definition bwrite (b : Z) : M unit :=
  fun m => Done tt (mk_machine (lg m) (cache m) (upd (disk m) b (cache m b))
                               (dirty m) (trace m ++ [EvWrite b (cache m b)])).

Definition mark_dirty (b : Z) : M unit :=
  fun m => Done tt (mk_machine (lg m) (cache m) (disk m) (upd (dirty m) b true)
                               (trace m)).

Definition acquire : M unit := l <- get_log;; set_log (set_lock l true).
Definition release : M unit := l <- get_log;; set_log (set_lock l false).

(** [for (i = 0; i < n; i++)] *)
Definition upto (n : Z) : list Z := map Z.of_nat (seq 0 (Z.to_nat n)).

Fixpoint for_each (l : list Z) (f : Z -> M unit) : M unit :=
  match l with
  | [] => ret tt
  | i :: r => f i;; for_each r f
  end.

Fixpoint fold_each {A} (l : list Z) (f : A -> Z -> M A) (a : A) : M A :=
  match l with
  | [] => ret a
  | i :: r => a' <- f a i;; fold_each r f a'
  end.

(** ** Byte-level encodings *)

Definition u32 (x : Z) : Z := x mod 2 ^ 32.
Definition uchar (x : Z) : Z := x mod 256.

(** [data[o] + (data[o+1]<<8) + (data[o+2]<<16) + (data[o+3]<<24)], as uint. *)
Definition get_u32 (d : block) (o : Z) : Z :=
  u32 (d o + Z.shiftl (d (o + 1)) 8 + Z.shiftl (d (o + 2)) 16
       + Z.shiftl (d (o + 3)) 24).

(** A little-endian 32-bit [int] field. *)
Definition get_int (d : block) (o : Z) : Z :=
  let u := get_u32 d o in if u <? 2 ^ 31 then u else u - 2 ^ 32.

(** [data[o] = v; data[o+1] = v>>8; data[o+2] = v>>16; data[o+3] = v>>24]. *)
Definition put_u32 (d : block) (o v : Z) : block :=
  upd (upd (upd (upd d o (uchar v)) (o + 1) (uchar (Z.shiftr v 8)))
           (o + 2) (uchar (Z.shiftr v 16)))
      (o + 3) (uchar (Z.shiftr v 24)).

(** ** Sample states

    With the xv6 configuration [BSIZE = 512], [LOGSIZE = 30], a log of 30
    blocks starting at block 2: checksum block 2, header block 3, data slots
    4 .. 31. *)

(** A home block whose first byte is 1. *)
Definition home10 : block := upd zero_block 0 1.

(** A transaction staging blocks 10 and 20 (block 10 modified in the cache
    only), every disk block zero, [end_op] about to commit. *)
Definition m_two_staged : machine :=
  mk_machine (mk_log false 2 30 0 true 1 0 2 (upd (upd (fun _ => 0) 0 10) 1 20))
             (upd (fun _ => zero_block) 10 home10) (fun _ => zero_block)
             (upd (upd (fun _ => false) 10 true) 20 true) [].

(** An empty transaction with one admitted operation. *)
Definition m_open : machine :=
  mk_machine (mk_log false 2 30 1 false 1 0 0 (fun _ => 0))
             (fun _ => zero_block) (fun _ => zero_block) (fun _ => false) [].

(** 28 blocks (100 .. 127) staged, with one admitted operation ... *)
Definition m_full_open : machine :=
  mk_machine (mk_log false 2 30 1 false 1 0 28 (fun i => 100 + i))
             (fun _ => zero_block) (fun _ => zero_block) (fun _ => false) [].

(** ... and with none. *)
Definition m_full_idle : machine :=
  mk_machine (mk_log false 2 30 0 false 1 0 28 (fun i => 100 + i))
             (fun _ => zero_block) (fun _ => zero_block) (fun _ => false) [].

(** A disk whose checksum block holds 1. *)
Definition disk_cs1 : Z -> block := upd (fun _ => zero_block) 2 (upd zero_block 0 1).

(** The log right after [initlog(1)] on [disk_cs1], before recovery. *)
Definition m_boot_cs1 : machine :=
  mk_machine (mk_log false 2 30 0 false 1 0 0 (fun _ => 0))
             disk_cs1 disk_cs1 (fun _ => false) [].

(** One operation still open besides the caller, block 10 staged. *)
Definition m_two_open : machine :=
  mk_machine (mk_log false 2 30 2 false 1 0 1 (fun _ => 10))
             (upd (fun _ => zero_block) 10 home10) (fun _ => zero_block)
             (upd (fun _ => false) 10 true) [].

(** The transaction of [m_two_staged] before its last [end_op]. *)
Definition m_two_last : machine :=
  mk_machine (mk_log false 2 30 1 false 1 0 2 (upd (upd (fun _ => 0) 0 10) 1 20))
             (upd (fun _ => zero_block) 10 home10) (fun _ => zero_block)
             (upd (upd (fun _ => false) 10 true) 20 true) [].

(** A disk whose header block records one committed block, home block 10,
    logged in block 4; the checksum block holds 0. *)
Definition disk_hdr1 : Z -> block :=
  upd (upd (fun _ => zero_block) 3 (put_u32 (put_u32 zero_block 0 1) 4 10)) 4 home10.

(** That disk with an empty in-memory log, as at boot. *)
Definition m_recover : machine :=
  mk_machine (mk_log false 2 30 0 false 1 0 0 (fun _ => 0))
             disk_hdr1 disk_hdr1 (fun _ => false) [].

Section Log.

Variables BSIZE LOGSIZE MAXOPBLOCKS : Z.

(** ** The checksum *)

(** [for (j = 0; j < BSIZE; j++) checksum += ((j+1)*data[j]);] on a uint. *)
Definition block_sum (acc : Z) (d : block) : Z :=
  fold_left (fun acc j => u32 (acc + (j + 1) * d j)) (upto BSIZE) acc.

(** The loop shared by [write_checksum], [check_checksum] (log blocks at
    [log.start+i+1]) and [recover_from_log] ([log.start+i+1+1]). *)
Definition checksum_log_blocks (off : Z) : M Z :=
  l <- get_log;;
  fold_each (upto (lh_n l))
    (fun cs i => l <- get_log;; d <- bread (start l + i + off);;
                 ret (block_sum cs d)) 0.

(** ** Header, install and log copy *)

(** [read_head]: the on-disk header block into [log.lh]. *)
Definition read_head : M unit :=
  l <- get_log;;
  buf <- bread (start l + 1);;
  let n := get_int buf 0 in
  set_log (set_n l n);;
  for_each (upto n)
    (fun i => l <- get_log;; set_log (set_block l i (get_int buf (4 + 4 * i)))).

(** [write_head]: [hb->n] and [hb->block[0..n)] into the header buffer,
    then [bwrite]; the other bytes of the buffer are left as they were. *)
Definition write_head : M unit :=
  l <- get_log;;
  buf <- bread (start l + 1);;
  let hb := fold_left (fun d i => put_u32 d (4 + 4 * i) (lh_block l i))
                      (upto (lh_n l)) (put_u32 buf 0 (lh_n l)) in
  buf_store (start l + 1) hb;;
  bwrite (start l + 1).

(** [install_trans]: log block [start+tail+1+1] to home [lh.block[tail]]. *)
Definition install_trans : M unit :=
  l <- get_log;;
  for_each (upto (lh_n l))
    (fun tail =>
       l <- get_log;;
       lbuf <- bread (start l + tail + 1 + 1);;
       _ <- bread (lh_block l tail);;
       buf_store (lh_block l tail) lbuf;;
       bwrite (lh_block l tail)).

(** [write_log]: cached block [lh.block[tail]] to log block [start+tail+1+1]. *)
Definition write_log : M unit :=
  l <- get_log;;
  for_each (upto (lh_n l))
    (fun tail =>
       l <- get_log;;
       _ <- bread (start l + tail + 1 + 1);;
       from <- bread (lh_block l tail);;
       buf_store (start l + tail + 1 + 1) from;;
       bwrite (start l + tail + 1 + 1)).

(** ** Checksum write and verification *)

Definition write_checksum : M unit :=
  cs <- checksum_log_blocks 1;;
  let cs := cs mod BSIZE in
  l <- get_log;;
  set_log (set_checksum l cs);;
  cprintf "write_checksum() - log checksum calculated as: %x " [cs];;
  l <- get_log;;
  cb <- bread (start l);;
  buf_store (start l) (put_u32 cb 0 cs);;
  bwrite (start l);;
  tc <- bread (start l);;
  cprintf "disk written checksum data: %x " [get_u32 tc 0].

Definition check_checksum : M Z :=
  nc <- checksum_log_blocks 1;;
  let nc := nc mod BSIZE in
  l <- get_log;;
  cprintf "check_checksum() - log checksum: %x " [checksum l];;
  cprintf "check_checksum() - new checksum: %x " [nc];;
  if checksum l =? nc then
    cprintf "check_checksum() - checksum validated prior to commit" [];;
    ret 1
  else
    cprintf "check_checksum() - ERROR: checksum invalid prior to commit" [];;
    ret 0.

(** ** Recovery and initialisation *)

Definition recover_from_log : M unit :=
  l <- get_log;;
  buf <- bread (start l);;
  let disk_check := get_u32 buf 0 in
  cs <- checksum_log_blocks (1 + 1);;
  let cs := cs mod BSIZE in
  if disk_check =? cs then
    cprintf "boot log checksum match, proceding with log commit. " [];;
    read_head;;
    install_trans;;
    l <- get_log;;
    set_log (set_n l 0);;
    write_head
  else
    cprintf "boot log checksum mismatch, will not commit log." [].

(** [sizeof(struct logheader)]: [int n; int block[LOGSIZE];]. *)
Definition sizeof_logheader : Z := 4 * (1 + LOGSIZE).

(** [initlog(dev)], with [sb.logstart] and [sb.nlog] of the superblock that
    [readsb] returns passed in; [initlock] leaves the lock released. *)
Definition initlog (dv sb_logstart sb_nlog : Z) : M unit :=
  if BSIZE <=? sizeof_logheader then panic "initlog: too big logheader" else
  l <- get_log;;
  set_log (mk_log false sb_logstart sb_nlog (outstanding l) (committing l) dv 0
                  (lh_n l) (lh_block l));;
  recover_from_log.

(** ** Commit *)

Definition commit : M unit :=
  l <- get_log;;
  if 0 <? lh_n l then
    write_log;;
    write_checksum;;
    ok <- check_checksum;;
    if negb (ok =? 0) then
      write_head;;
      install_trans;;
      l <- get_log;;
      set_log (set_n l 0);;
      write_head
    else panic "log checksum has a missmatch"
  else ret tt.

(** ** log_write *)

(** [for (i = 0; i < log.lh.n; i++) if (log.lh.block[i] == b->blockno) break;] *)
Fixpoint scan_from (blk : Z -> Z) (b i : Z) (fuel : nat) : Z :=
  match fuel with
  | O => i
  | S f => if blk i =? b then i else scan_from blk b (i + 1) f
  end.

Definition log_write (blockno : Z) : M unit :=
  l <- get_log;;
  if (LOGSIZE <=? lh_n l) || (size l - 1 - 1 <=? lh_n l)
  then panic "too big a transaction" else
  if outstanding l <? 1 then panic "log_write outside of trans" else
  acquire;;
  l <- get_log;;
  let i := scan_from (lh_block l) blockno 0 (Z.to_nat (lh_n l)) in
  let l' := set_block l i blockno in
  set_log (if i =? lh_n l then set_n l' (lh_n l' + 1) else l');;
  mark_dirty blockno;;
  release.

(** ** begin_op *)

(** One pass of the [while(1)] loop of [begin_op], lock held: either the
    caller sleeps ([sleep(&log, &log.lock)] releases the lock), or it is
    admitted and the lock is released. *)
Inductive begin_step := Sleep | Enter (l : log).

Definition begin_op_check (l : log) : begin_step :=
  if committing l then Sleep
  else if lh_n l + (outstanding l + 1) * MAXOPBLOCKS >? LOGSIZE - 2 then Sleep
  else Enter (set_lock (set_outstanding l (outstanding l + 1)) false).

(** [begin_op]: [obs] lists the log states the caller finds when it takes the
    lock, first on entry and then after each wakeup (other threads may have
    changed the log while it slept).  [None]: still asleep. *)
Fixpoint begin_op (obs : list log) : option log :=
  match obs with
  | [] => None
  | l :: rest =>
      match begin_op_check (set_lock l true) with
      | Enter l' => Some l'
      | Sleep => begin_op rest
      end
  end.

(** The header image [write_head] builds in the buffer [buf]. *)
Definition encode_head (l : log) (buf : block) : block :=
  fold_left (fun d i => put_u32 d (4 + 4 * i) (lh_block l i))
            (upto (lh_n l)) (put_u32 buf 0 (lh_n l)).

(** The fields [n] and [block[i]] of a header block, as [read_head] reads them. *)
Definition head_n (h : block) : Z := get_int h 0.
Definition head_block (h : block) (i : Z) : Z := get_int h (4 + 4 * i).

(** ** end_op *)

(** [wakeup(&log)] only makes the sleepers of [begin_op] runnable; what they
    find when they take the lock again is the observation list of
    [begin_op], so here it changes nothing. *)
Definition wakeup : M unit := ret tt.

Definition end_op : M unit :=
  acquire;;
  l <- get_log;;
  set_log (set_outstanding l (outstanding l - 1));;
  l <- get_log;;
  if committing l then panic "log.committing" else
  do_commit <- (if outstanding l =? 0
                then set_log (set_committing l true);; ret true
                else wakeup;; ret false);;
  release;;
  if do_commit then
    commit;;
    acquire;;
    l <- get_log;;
    set_log (set_committing l false);;
    wakeup;;
    release
  else ret tt.

(** A sequence of [log_write] calls. *)
Definition log_writes (bs : list Z) : M unit := for_each bs log_write.

(** The staged block list [lh.block[0..n)]. *)
Definition staged (l : log) : list Z := map (lh_block l) (upto (lh_n l)).

(** The block numbers written to disk, in order. *)
Fixpoint writes (tr : list event) : list Z :=
  match tr with
  | [] => []
  | EvWrite b _ :: r => b :: writes r
  | _ :: r => writes r
  end.

(** The disk after a crash that lets exactly the first [k] [bwrite]s of a
    trace land on the disk [d]. *)
Fixpoint crash_disk (d : Z -> block) (tr : list event) (k : nat) : Z -> block :=
  match k, tr with
  | O, _ => d
  | _, [] => d
  | S k', EvWrite b data :: r => crash_disk (upd d b data) r k'
  | S _, _ :: r => crash_disk d r k
  end.

(** The value computed by [checksum_log_blocks off] on a cache [C] and a
    log [L]: the checksum loop with its reads taken from [C]. *)
Definition log_sum (C : Z -> block) (L : log) (off : Z) : Z :=
  fold_left (fun cs i => block_sum cs (C (start L + i + off))) (upto (lh_n L)) 0.

(** * Proofs *)

(** ** Monad and loop lemmas *)

Lemma bind_done {A B} (c : M A) (f : A -> M B) m a m' :
  c m = Done a m' -> bind c f m = f a m'.
Proof. intros H; unfold bind; now rewrite H. Qed.

Lemma writes_app tr1 tr2 : writes (tr1 ++ tr2) = writes tr1 ++ writes tr2.
Proof.
  induction tr1 as [|e tr1 IH]; [reflexivity|].
  destruct e; simpl; rewrite ?IH; reflexivity.
Qed.

Lemma for_each_inv (P : machine -> Prop) (g : Z -> list Z) (l : list Z)
      (f : Z -> M unit) m :
  P m ->
  (forall i m, In i l -> P m ->
     exists m', f i m = Done tt m' /\ P m' /\
                writes (trace m') = writes (trace m) ++ g i) ->
  exists m', for_each l f m = Done tt m' /\ P m' /\
             writes (trace m') = writes (trace m) ++ flat_map g l.
Proof.
  revert m; induction l as [|i l IH]; intros m HP Hf.
  - exists m; simpl; rewrite app_nil_r; auto.
  - destruct (Hf i m (or_introl eq_refl) HP) as (m1 & E1 & HP1 & W1).
    destruct (IH m1 HP1) as (m2 & E2 & HP2 & W2).
    { intros j mj Hj; apply Hf; simpl; auto. }
    exists m2; split; [simpl; erewrite bind_done by exact E1; exact E2|].
    split; [exact HP2|]. rewrite W2, W1; simpl; now rewrite app_assoc.
Qed.

Lemma for_each_cons_done l i f m m' :
  for_each (i :: l) f m = Done tt m' ->
  exists m1, f i m = Done tt m1 /\ for_each l f m1 = Done tt m'.
Proof.
  simpl; unfold bind; destruct (f i m) as [[] m1|s m1]; [|discriminate].
  intros H; exists m1; auto.
Qed.

Lemma fold_each_reads {A} (l : list Z) (f : A -> Z -> M A) (h : A -> Z -> A)
      (rb : Z -> Z) L C D Dt :
  (forall a i tr, f a i (mk_machine L C D Dt tr) =
                  Done (h a i) (mk_machine L C D Dt (tr ++ [EvRead (rb i)]))) ->
  forall a tr, fold_each l f a (mk_machine L C D Dt tr) =
    Done (fold_left h l a)
         (mk_machine L C D Dt (tr ++ map (fun i => EvRead (rb i)) l)).
Proof.
  intros Hf; induction l as [|i l IH]; intros a tr.
  - simpl; now rewrite app_nil_r.
  - simpl; erewrite bind_done by apply Hf; rewrite IH, <- app_assoc; reflexivity.
Qed.

Lemma checksum_log_blocks_spec off L C D Dt tr :
  checksum_log_blocks off (mk_machine L C D Dt tr) =
  Done (log_sum C L off)
       (mk_machine L C D Dt
          (tr ++ map (fun i => EvRead (start L + i + off)) (upto (lh_n L)))).
Proof.
  unfold checksum_log_blocks, log_sum; simpl.
  apply (fold_each_reads _ _ (fun cs i => block_sum cs (C (start L + i + off)))
                         (fun i => start L + i + off)).
  intros; reflexivity.
Qed.

Lemma in_upto x n : In x (upto n) <-> 0 <= x < n.
Proof.
  unfold upto; rewrite in_map_iff; split.
  - intros (k & <- & Hk); apply in_seq in Hk; lia.
  - intros Hx; exists (Z.to_nat x); split; [lia|]; apply in_seq; lia.
Qed.

Lemma upto_succ n : 0 <= n -> upto (n + 1) = upto n ++ [n].
Proof.
  intros Hn; unfold upto.
  replace (Z.to_nat (n + 1)) with (S (Z.to_nat n)) by lia.
  rewrite seq_S, map_app; simpl; now rewrite Z2Nat.id.
Qed.

Lemma upto_length n : List.length (upto n) = Z.to_nat n.
Proof. unfold upto; now rewrite length_map, length_seq. Qed.

Lemma log_sum_frame C C' L off :
  0 <= off ->
  (forall x, start L + off <= x -> C' x = C x) ->
  log_sum C' L off = log_sum C L off.
Proof.
  intros Hoff HC; unfold log_sum.
  assert (Hin : forall i, In i (upto (lh_n L)) ->
                  C' (start L + i + off) = C (start L + i + off)).
  { intros i Hi; apply in_upto in Hi; apply HC; lia. }
  generalize 0; induction (upto (lh_n L)) as [|i l IH]; intros a; simpl; [reflexivity|].
  rewrite Hin by (left; reflexivity).
  apply IH; intros j Hj; apply Hin; right; exact Hj.
Qed.

Lemma writes_map_read (g : Z -> Z) l : writes (map (fun i => EvRead (g i)) l) = [].
Proof. induction l; simpl; auto. Qed.

Ltac wr := simpl; rewrite ?writes_app, ?writes_map_read; simpl; rewrite ?app_nil_r, <- ?app_assoc; reflexivity.
Ltac run E := erewrite bind_done by apply E; cbv beta.
Ltac run_get := erewrite bind_done by reflexivity; cbv beta.

(** One step of each primitive on a machine in normal form. *)
Lemma get_log_run L C D Dt tr :
  get_log (mk_machine L C D Dt tr) = Done L (mk_machine L C D Dt tr).
Proof. reflexivity. Qed.
Lemma set_log_run l L C D Dt tr :
  set_log l (mk_machine L C D Dt tr) = Done tt (mk_machine l C D Dt tr).
Proof. reflexivity. Qed.
Lemma cprintf_run s a L C D Dt tr :
  cprintf s a (mk_machine L C D Dt tr) =
  Done tt (mk_machine L C D Dt (tr ++ [EvPrint s a])).
Proof. reflexivity. Qed.
Lemma bread_run b L C D Dt tr :
  bread b (mk_machine L C D Dt tr) = Done (C b) (mk_machine L C D Dt (tr ++ [EvRead b])).
Proof. reflexivity. Qed.
Lemma buf_store_run b d L C D Dt tr :
  buf_store b d (mk_machine L C D Dt tr) = Done tt (mk_machine L (upd C b d) D Dt tr).
Proof. reflexivity. Qed.
Lemma bwrite_run b L C D Dt tr :
  bwrite b (mk_machine L C D Dt tr) =
  Done tt (mk_machine L C (upd D b (C b)) Dt (tr ++ [EvWrite b (C b)])).
Proof. reflexivity. Qed.
Lemma mark_dirty_run b L C D Dt tr :
  mark_dirty b (mk_machine L C D Dt tr) = Done tt (mk_machine L C D (upd Dt b true) tr).
Proof. reflexivity. Qed.
Lemma acquire_run L C D Dt tr :
  acquire (mk_machine L C D Dt tr) = Done tt (mk_machine (set_lock L true) C D Dt tr).
Proof. reflexivity. Qed.
Lemma release_run L C D Dt tr :
  release (mk_machine L C D Dt tr) = Done tt (mk_machine (set_lock L false) C D Dt tr).
Proof. reflexivity. Qed.

Ltac step := first [ run get_log_run | run set_log_run | run cprintf_run
  | run bread_run | run buf_store_run | run bwrite_run | run mark_dirty_run
  | run acquire_run | run release_run ].

Lemma flat_map_single (h : Z -> Z) l : flat_map (fun x => [h x]) l = map h l.
Proof. induction l; simpl; congruence. Qed.

(** ** The procedures of commit, one by one *)

Lemma write_log_spec m :
  exists m', write_log m = Done tt m' /\ lg m' = lg m /\
    writes (trace m') = writes (trace m) ++
      map (fun t => start (lg m) + t + 1 + 1) (upto (lh_n (lg m))).
Proof.
  unfold write_log; run_get.
  rewrite <- flat_map_single.
  apply (for_each_inv (fun m' => lg m' = lg m)); [reflexivity|].
  intros t [L C D Dt tr] _ HL; simpl in HL; subst L.
  eexists; split; [reflexivity|]; split; [reflexivity|]; wr.
Qed.

Lemma install_trans_spec m :
  exists m', install_trans m = Done tt m' /\ lg m' = lg m /\
    writes (trace m') = writes (trace m) ++
      map (lh_block (lg m)) (upto (lh_n (lg m))).
Proof.
  unfold install_trans; run_get.
  rewrite <- (flat_map_single (lh_block (lg m))).
  apply (for_each_inv (fun m' => lg m' = lg m)); [reflexivity|].
  intros t [L C D Dt tr] _ HL; simpl in HL; subst L.
  eexists; split; [reflexivity|]; split; [reflexivity|]; wr.
Qed.

Lemma write_head_spec m :
  exists m', write_head m = Done tt m' /\ lg m' = lg m /\
    writes (trace m') = writes (trace m) ++ [start (lg m) + 1].
Proof.
  destruct m as [L C D Dt tr].
  unfold write_head, bind, get_log, bread, buf_store, bwrite; cbv beta iota.
  eexists; split; [reflexivity|]; split; [reflexivity|].
  cbn [trace lg]; rewrite !writes_app; cbn [writes app]; rewrite <- app_assoc; reflexivity.
Qed.

Lemma write_checksum_spec L C D Dt tr :
  exists m', write_checksum (mk_machine L C D Dt tr) = Done tt m' /\
    lg m' = set_checksum L (log_sum C L 1 mod BSIZE) /\
    (forall x, x <> start L -> cache m' x = C x) /\
    writes (trace m') = writes tr ++ [start L].
Proof.
  unfold write_checksum; run checksum_log_blocks_spec.
  repeat step; rewrite cprintf_run.
  eexists; split; [reflexivity|]; cbn [lg cache trace set_checksum start].
  split; [reflexivity|]; split.
  - intros x Hx; unfold upd; rewrite (proj2 (Z.eqb_neq _ _) Hx); reflexivity.
  - rewrite !writes_app, writes_map_read; cbn [writes app]; rewrite ?app_nil_r; reflexivity.
Qed.

Lemma check_checksum_spec L C D Dt tr :
  exists m', check_checksum (mk_machine L C D Dt tr) =
             Done (if checksum L =? log_sum C L 1 mod BSIZE then 1 else 0) m' /\
    lg m' = L /\ cache m' = C /\ writes (trace m') = writes tr.
Proof.
  unfold check_checksum; run checksum_log_blocks_spec; run_get.
  simpl; destruct (checksum L =? log_sum C L 1 mod BSIZE);
    (eexists; split; [reflexivity|]; split; [reflexivity|]; split; [reflexivity|]; wr).
Qed.

(** ** Commit *)

(** C2: for a non-empty transaction, [commit] writes to disk, in this order:
    the [n] log blocks [start+2 .. start+n+1], the checksum block [start],
    the header block [start+1] (the commit point), the [n] home blocks, and
    the header block again, after which [lh.n = 0].  The checksum
    verification done between the checksum write and the first header write
    always succeeds, so the [panic] of the mismatch branch is never reached:
    [commit] ends in [Done], and no header write precedes the checksum
    write. *)
Theorem commit_write_order m :
  0 < lh_n (lg m) ->
  exists m', commit m = Done tt m' /\ lh_n (lg m') = 0 /\
    writes (trace m') = writes (trace m)
      ++ map (fun t => start (lg m) + t + 1 + 1) (upto (lh_n (lg m)))
      ++ [start (lg m)]
      ++ [start (lg m) + 1]
      ++ map (lh_block (lg m)) (upto (lh_n (lg m)))
      ++ [start (lg m) + 1].
Proof.
  intros Hn; destruct m as [L C D Dt tr]; simpl in *.
  unfold commit; run_get.
  change (lg (mk_machine L C D Dt tr)) with L.
  rewrite (proj2 (Z.ltb_lt _ _) Hn); cbv iota.
  destruct (write_log_spec (mk_machine L C D Dt tr)) as (m1 & E1 & HL1 & W1).
  run E1. destruct m1 as [L1 C1 D1 Dt1 tr1]; simpl in HL1, W1; subst L1.
  destruct (write_checksum_spec L C1 D1 Dt1 tr1) as (m2 & E2 & HL2 & HC2 & W2).
  run E2. destruct m2 as [L2 C2 D2 Dt2 tr2]; simpl in HL2, HC2, W2; subst L2.
  destruct (check_checksum_spec (set_checksum L (log_sum C1 L 1 mod BSIZE))
              C2 D2 Dt2 tr2) as (m3 & E3 & HL3 & HC3 & W3).
  run E3.
  replace (log_sum C2 (set_checksum L (log_sum C1 L 1 mod BSIZE)) 1)
    with (log_sum C1 L 1)
    by (symmetry; apply (log_sum_frame C1 C2 L 1); [lia|];
        intros x Hx; apply HC2; lia).
  simpl checksum; rewrite Z.eqb_refl; change (negb (1 =? 0)) with true; cbv iota.
  destruct (write_head_spec m3) as (m4 & E4 & HL4 & W4). run E4.
  destruct (install_trans_spec m4) as (m5 & E5 & HL5 & W5). run E5.
  run_get. run_get.
  destruct (write_head_spec
              (mk_machine (set_n (lg m5) 0) (cache m5) (disk m5) (dirty m5)
                          (trace m5))) as (m6 & E6 & HL6 & W6).
  rewrite E6. exists m6; split; [reflexivity|].
  rewrite HL6; split; [reflexivity|].
  rewrite W6; simpl. rewrite W5, HL5, HL4, W4, HL3, W3, W2, W1.
  simpl; rewrite <- !app_assoc; reflexivity.
Qed.

(** C9: committing an empty transaction ([lh.n = 0]) leaves the whole
    machine unchanged: no read, no write, same log, cache and disk. *)
Theorem commit_empty_noop m :
  lh_n (lg m) = 0 -> commit m = Done tt m.
Proof.
  intros Hn; unfold commit; run_get; rewrite Hn; reflexivity.
Qed.

(** ** log_write *)

Lemma scan_from_spec blk b k : forall i,
  i <= scan_from blk b i k <= i + Z.of_nat k /\
  (scan_from blk b i k < i + Z.of_nat k -> blk (scan_from blk b i k) = b) /\
  (forall j, i <= j < scan_from blk b i k -> blk j <> b).
Proof.
  induction k as [|k IH]; intros i; simpl.
  - split; [lia|]; split; [lia|]; intros; lia.
  - destruct (Z.eqb_spec (blk i) b) as [E|E].
    + split; [lia|]; split; [auto|]; intros; lia.
    + destruct (IH (i + 1)) as (H1 & H2 & H3).
      split; [lia|]; split; [intros; apply H2; lia|].
      intros j Hj; destruct (Z.eq_dec j i) as [->|Hne]; [exact E|].
      apply H3; lia.
Qed.

Lemma map_upd_notin {A} (f : Z -> A) k v l :
  ~ In k l -> map (upd f k v) l = map f l.
Proof.
  intros Hk; apply map_ext_in; intros x Hx; unfold upd.
  destruct (Z.eqb_spec x k) as [->|]; [contradiction|reflexivity].
Qed.

Lemma existsb_staged b blk n :
  existsb (Z.eqb b) (map blk (upto n)) = true <->
  exists j, 0 <= j < n /\ blk j = b.
Proof.
  rewrite existsb_exists; split.
  - intros (x & Hx & E); apply in_map_iff in Hx as (j & <- & Hj).
    apply in_upto in Hj; apply Z.eqb_eq in E; eauto.
  - intros (j & Hj & E); exists (blk j); split.
    + apply in_map, in_upto; exact Hj.
    + apply Z.eqb_eq; auto.
Qed.

(** One successful [log_write]: the capacity and transaction checks passed,
    and the block is absorbed into its slot or appended. *)
Lemma log_write_done b m m' :
  0 <= lh_n (lg m) -> log_write b m = Done tt m' ->
  lh_n (lg m) < LOGSIZE /\ lh_n (lg m) < size (lg m) - 2 /\
  1 <= outstanding (lg m) /\
  size (lg m') = size (lg m) /\ outstanding (lg m') = outstanding (lg m) /\
  staged (lg m') = (if existsb (Z.eqb b) (staged (lg m)) then staged (lg m)
                    else staged (lg m) ++ [b]) /\
  lh_n (lg m') = lh_n (lg m) + (if existsb (Z.eqb b) (staged (lg m)) then 0 else 1).
Proof.
  destruct m as [L C D Dt tr]; cbn [lg]; intros Hn.
  unfold log_write; run_get; change (lg (mk_machine L C D Dt tr)) with L.
  destruct (Z.leb_spec LOGSIZE (lh_n L)); [discriminate|].
  destruct (Z.leb_spec (size L - 1 - 1) (lh_n L)); [discriminate|]; cbn [orb].
  destruct (Z.ltb_spec (outstanding L) 1); [discriminate|].
  intros Hw.
  unfold acquire, release, mark_dirty, bind, get_log, set_log in Hw.
  cbv beta iota in Hw; injection Hw as <-.
  unfold staged.
  destruct (scan_from_spec (lh_block L) b (Z.to_nat (lh_n L)) 0) as (S1 & S2 & S3).
  set (r := scan_from (lh_block L) b 0 (Z.to_nat (lh_n L))) in *.
  rewrite Z2Nat.id in S1, S2 by lia.
  destruct (Z.eqb_spec r (lh_n L)) as [Er|Er];
    cbn [lg set_lock set_n set_block size outstanding lh_n lh_block];
    (refine (conj _ (conj _ (conj _ (conj eq_refl (conj eq_refl _))))); [lia|lia|lia|]).
  - assert (Hf : existsb (Z.eqb b) (map (lh_block L) (upto (lh_n L))) = false).
    { apply not_true_is_false; rewrite existsb_staged.
      intros (j & Hj & E); apply (S3 j); [lia|exact E]. }
    rewrite Hf, upto_succ, map_app by lia; simpl.
    rewrite Er, map_upd_notin by (rewrite in_upto; lia).
    unfold upd; rewrite Z.eqb_refl; split; reflexivity.
  - assert (Ht : existsb (Z.eqb b) (map (lh_block L) (upto (lh_n L))) = true).
    { apply existsb_staged; exists r; split; [lia|apply S2; lia]. }
    rewrite Ht; split; [|lia].
    apply map_ext; intros x; unfold upd.
    destruct (Z.eqb_spec x r) as [->|]; [symmetry; apply S2; lia|reflexivity].
Qed.

(** The capacity test of [log_write] comes first. *)
Lemma log_write_full m b :
  LOGSIZE <= lh_n (lg m) \/ size (lg m) - 1 - 1 <= lh_n (lg m) ->
  log_write b m = Halt "too big a transaction" m.
Proof.
  intros Hf; destruct m as [L C D Dt tr]; cbn [lg] in Hf.
  unfold log_write; run_get; change (lg (mk_machine L C D Dt tr)) with L.
  replace ((LOGSIZE <=? lh_n L) || (size L - 1 - 1 <=? lh_n L)) with true;
    [reflexivity|].
  destruct Hf as [Hf|Hf]; apply Z.leb_le in Hf; rewrite Hf;
    [reflexivity|symmetry; apply orb_true_r].
Qed.

Lemma log_write_not_full m b :
  lh_n (lg m) < LOGSIZE -> lh_n (lg m) < size (lg m) - 1 - 1 ->
  log_write b m = (if outstanding (lg m) <? 1 then panic "log_write outside of trans"
                   else (acquire;;
                         l <- get_log;;
                         let i := scan_from (lh_block l) b 0 (Z.to_nat (lh_n l)) in
                         let l' := set_block l i b in
                         set_log (if i =? lh_n l then set_n l' (lh_n l' + 1) else l');;
                         mark_dirty b;;
                         release)) m.
Proof.
  intros H1 H2; unfold log_write; run_get.
  apply Z.leb_gt in H1; apply Z.leb_gt in H2; rewrite H1, H2; reflexivity.
Qed.

Lemma existsb_in b l : existsb (Z.eqb b) l = true <-> In b l.
Proof.
  rewrite existsb_exists; split.
  - intros (x & Hx & E); apply Z.eqb_eq in E; subst; exact Hx.
  - intros Hb; exists b; split; [exact Hb|apply Z.eqb_refl].
Qed.

(** Once [b] is staged, further recordings of [b] change nothing. *)
Lemma log_writes_absorbed b k : forall m m',
  0 <= lh_n (lg m) -> In b (staged (lg m)) ->
  log_writes (repeat b k) m = Done tt m' ->
  staged (lg m') = staged (lg m) /\ lh_n (lg m') = lh_n (lg m).
Proof.
  induction k as [|k IH]; intros m m' Hn Hb Hr.
  - simpl in Hr; injection Hr as <-; auto.
  - apply for_each_cons_done in Hr as (m1 & E1 & Hr).
    destruct (log_write_done b m m1 Hn E1) as (_ & _ & _ & _ & _ & S1 & N1).
    apply existsb_in in Hb as Hb'; rewrite Hb' in S1, N1.
    assert (Hb1 : In b (staged (lg m1))) by (rewrite S1; exact Hb).
    destruct (IH m1 m' ltac:(lia) Hb1 Hr) as [S2 N2].
    split; [congruence|lia].
Qed.

(** Invariant of a run of [log_write]s: the staged list has no duplicate,
    contains every recorded block and respects the capacity bound. *)
Lemma log_writes_run bs : forall m m',
  0 <= lh_n (lg m) -> NoDup (staged (lg m)) ->
  lh_n (lg m) <= Z.max 0 (Z.min LOGSIZE (size (lg m) - 2)) ->
  log_writes bs m = Done tt m' ->
  0 <= lh_n (lg m') /\ NoDup (staged (lg m')) /\
  incl (staged (lg m)) (staged (lg m')) /\ incl bs (staged (lg m')) /\
  lh_n (lg m') <= Z.max 0 (Z.min LOGSIZE (size (lg m) - 2)) /\
  size (lg m') = size (lg m).
Proof.
  induction bs as [|b bs IH]; intros m m' Hn Hnd Hcap Hr.
  - simpl in Hr; injection Hr as <-.
    repeat split; auto using incl_refl; intros x [].
  - apply for_each_cons_done in Hr as (m1 & E1 & Hr).
    destruct (log_write_done b m m1 Hn E1) as (C1 & C2 & _ & Sz & _ & S1 & N1).
    assert (Hin1 : In b (staged (lg m1)) /\ incl (staged (lg m)) (staged (lg m1)) /\
                   NoDup (staged (lg m1))).
    { destruct (existsb (Z.eqb b) (staged (lg m))) eqn:E; rewrite S1.
      - apply existsb_in in E; auto using incl_refl.
      - split; [apply in_or_app; right; left; reflexivity|].
        split; [apply incl_appl, incl_refl|].
        apply (Permutation_NoDup (Permutation_cons_append _ _)).
        constructor; [|exact Hnd].
        intros Hb; apply existsb_in in Hb; congruence. }
    destruct Hin1 as (Hb1 & Hincl1 & Hnd1).
    assert (Hn1 : 0 <= lh_n (lg m1)) by (destruct (existsb _ _); lia).
    assert (Hcap1 : lh_n (lg m1) <= Z.max 0 (Z.min LOGSIZE (size (lg m1) - 2)))
      by (rewrite Sz; destruct (existsb _ _); lia).
    destruct (IH m1 m' Hn1 Hnd1 Hcap1 Hr)
      as (Hn' & Hnd' & Hincl' & Hbs' & Hcap' & Sz').
    rewrite Sz in Hcap'.
    refine (conj Hn' (conj Hnd' (conj _ (conj _ (conj Hcap' _))))).
    + eapply incl_tran; eauto.
    + intros x [<-|Hx]; [apply Hincl'; exact Hb1|apply Hbs'; exact Hx].
    + congruence.
Qed.

(** C5: recording the same block number [N >= 1] times within a
    transaction (each call returning) leaves exactly one slot for it, at the
    position of its first recording (the staged list is unchanged when the
    block was already staged, and gets the block appended otherwise);
    [lh.n] grows by one exactly when the block was not yet staged. *)
Theorem log_write_absorption m b N m' :
  (1 <= N)%nat -> 0 <= lh_n (lg m) -> NoDup (staged (lg m)) ->
  log_writes (repeat b N) m = Done tt m' ->
  staged (lg m') = (if existsb (Z.eqb b) (staged (lg m)) then staged (lg m)
                    else staged (lg m) ++ [b]) /\
  count_occ Z.eq_dec (staged (lg m')) b = 1%nat /\
  lh_n (lg m') = lh_n (lg m) + (if existsb (Z.eqb b) (staged (lg m)) then 0 else 1).
Proof.
  intros HN Hn Hnd Hr.
  destruct N as [|k]; [lia|]; simpl repeat in Hr.
  apply for_each_cons_done in Hr as (m1 & E1 & Hr).
  destruct (log_write_done b m m1 Hn E1) as (_ & _ & _ & _ & _ & S1 & N1).
  assert (Hb1 : In b (staged (lg m1))).
  { rewrite S1; destruct (existsb (Z.eqb b) (staged (lg m))) eqn:E.
    - apply existsb_in; exact E.
    - apply in_or_app; right; left; reflexivity. }
  destruct (log_writes_absorbed b k m1 m') as [S2 N2];
    [destruct (existsb _ _); lia|exact Hb1|exact Hr|].
  rewrite S2, N2, S1, N1; split; [reflexivity|split; [|reflexivity]].
  destruct (existsb (Z.eqb b) (staged (lg m))) eqn:E.
  - apply existsb_in in E.
    pose proof (proj1 (NoDup_count_occ Z.eq_dec _) Hnd b).
    pose proof (proj1 (count_occ_In Z.eq_dec _ b) E). lia.
  - rewrite count_occ_app; simpl.
    destruct (Z.eq_dec b b) as [_|]; [|congruence].
    assert (Hc : count_occ Z.eq_dec (staged (lg m)) b = 0%nat).
    { apply count_occ_not_In; intros Hb; apply existsb_in in Hb; congruence. }
    lia.
Qed.

(** C6 (as amended): [log_write] halts with "too big a transaction" exactly
    when, at the call, [lh.n >= LOGSIZE] or [lh.n >= size - 2]; this test
    comes before the absorption scan.  Hence a transaction started empty
    whose recordings all return has staged at most
    [min(LOGSIZE, size - 2)] distinct blocks: staging more is fatal. *)
Theorem log_write_capacity m b :
  (log_write b m = Halt "too big a transaction" m <->
   LOGSIZE <= lh_n (lg m) \/ size (lg m) - 2 <= lh_n (lg m)) /\
  (forall bs m', lh_n (lg m) = 0 -> log_writes bs m = Done tt m' ->
     Z.of_nat (List.length (nodup Z.eq_dec bs)) <= lh_n (lg m') <=
     Z.max 0 (Z.min LOGSIZE (size (lg m) - 2))).
Proof.
  split.
  - split.
    + intros H.
      destruct (Z_le_gt_dec LOGSIZE (lh_n (lg m))) as [|H1]; [left; lia|].
      destruct (Z_le_gt_dec (size (lg m) - 2) (lh_n (lg m))) as [|H2]; [right; lia|].
      exfalso; rewrite log_write_not_full in H by lia.
      destruct (outstanding (lg m) <? 1); [discriminate|].
      destruct m as [L C D Dt tr]; discriminate.
    + intros H; apply log_write_full; lia.
  - intros bs m' H0 Hr.
    destruct (log_writes_run bs m m') as (Hn' & Hnd' & _ & Hbs & Hcap & _);
      [lia| |lia|exact Hr|].
    { unfold staged; rewrite H0; constructor. }
    split; [|exact Hcap].
    assert (Hl : Z.of_nat (List.length (staged (lg m'))) = lh_n (lg m')).
    { unfold staged; rewrite length_map, upto_length; lia. }
    rewrite <- Hl; apply Nat2Z.inj_le, NoDup_incl_length; [apply NoDup_nodup|].
    intros x Hx; apply Hbs; apply nodup_In in Hx; exact Hx.
Qed.

(** C8 (as amended): with no admitted operation ([outstanding < 1])
    [log_write] always halts, leaving the machine as it was: with
    "too big a transaction" when the capacity test (made first) fails
    ([lh.n >= LOGSIZE] or [lh.n >= size - 2]), and with
    "log_write outside of trans" otherwise; with [outstanding >= 1] it never
    halts with "log_write outside of trans". *)
Theorem log_write_outside_trans m b :
  (outstanding (lg m) < 1 ->
   LOGSIZE <= lh_n (lg m) \/ size (lg m) - 2 <= lh_n (lg m) ->
   log_write b m = Halt "too big a transaction" m) /\
  (outstanding (lg m) < 1 ->
   lh_n (lg m) < LOGSIZE -> lh_n (lg m) < size (lg m) - 2 ->
   log_write b m = Halt "log_write outside of trans" m) /\
  (1 <= outstanding (lg m) ->
   forall m', log_write b m <> Halt "log_write outside of trans" m').
Proof.
  split; [|split].
  - intros _ H; apply log_write_full; lia.
  - intros Ho H1 H2.
    rewrite log_write_not_full by lia.
    apply Z.ltb_lt in Ho; rewrite Ho; reflexivity.
  - intros Ho m'.
    destruct (Z_le_gt_dec LOGSIZE (lh_n (lg m))) as [H1|H1];
      [rewrite log_write_full by lia; discriminate|].
    destruct (Z_le_gt_dec (size (lg m) - 1 - 1) (lh_n (lg m))) as [H2|H2];
      [rewrite log_write_full by lia; discriminate|].
    rewrite log_write_not_full by lia.
    apply Z.ltb_ge in Ho; rewrite Ho.
    destruct m as [L C D Dt tr]; discriminate.
Qed.

(** C10: the capacity test precedes the absorption scan, so once
    [lh.n >= LOGSIZE] or [lh.n >= size - 2] every [log_write] halts with
    "too big a transaction", whatever the block, staged or not. *)
Theorem log_write_full_panics m b :
  LOGSIZE <= lh_n (lg m) \/ size (lg m) - 1 - 1 <= lh_n (lg m) ->
  log_write b m = Halt "too big a transaction" m.
Proof. intros H; apply log_write_full; exact H. Qed.

(** ** begin_op *)

Lemma begin_op_check_locked x :
  begin_op_check (set_lock x true) =
  if committing x || (LOGSIZE - 2 <? lh_n x + (outstanding x + 1) * MAXOPBLOCKS)
  then Sleep else Enter (set_lock (set_outstanding x (outstanding x + 1)) false).
Proof.
  unfold begin_op_check; cbn [committing set_lock lh_n outstanding].
  destruct (committing x); [reflexivity|]; cbn [orb].
  rewrite Z.gtb_ltb; destruct (_ <? _); reflexivity.
Qed.

(** C4: [begin_op] admits the caller at the first state it observes (on
    entry or after a wakeup) in which no commit is in flight and
    [lh.n + (outstanding+1)*MAXOPBLOCKS > LOGSIZE - 2] is false; at every
    earlier observation one of the two conditions held and it slept.  The
    admitted state is the observed one with [outstanding] increased by one
    and the lock released. *)
Theorem begin_op_admission obs l' :
  begin_op obs = Some l' <->
  exists pre l rest, obs = pre ++ l :: rest /\
    Forall (fun x => committing x = true \/
                     LOGSIZE - 2 < lh_n x + (outstanding x + 1) * MAXOPBLOCKS) pre /\
    committing l = false /\
    lh_n l + (outstanding l + 1) * MAXOPBLOCKS <= LOGSIZE - 2 /\
    l' = set_lock (set_outstanding l (outstanding l + 1)) false.
Proof.
  induction obs as [|x rest IH].
  - split; [discriminate|]. intros (pre & l & r & E & _); destruct pre; discriminate.
  - simpl; rewrite begin_op_check_locked.
    destruct (committing x) eqn:Ec; cbn [orb].
    + rewrite IH; split.
      * intros (pre & l & r & -> & Hf & H); exists (x :: pre), l, r.
        split; [reflexivity|]; split; [constructor; auto|exact H].
      * intros ([|y pre] & l & r & E & Hf & H1 & H2 & H3).
        -- injection E as -> ->; congruence.
        -- injection E as -> ->; inversion Hf; subst.
           exists pre, l, r; refine (conj eq_refl _); repeat split; assumption.
    + destruct (Z.ltb_spec (LOGSIZE - 2) (lh_n x + (outstanding x + 1) * MAXOPBLOCKS))
        as [Hc|Hc].
      * rewrite IH; split.
        -- intros (pre & l & r & -> & Hf & H); exists (x :: pre), l, r.
           split; [reflexivity|]; split; [constructor; auto|exact H].
        -- intros ([|y pre] & l & r & E & Hf & H1 & H2 & H3).
           ++ injection E as -> ->; lia.
           ++ injection E as -> ->; inversion Hf; subst.
              exists pre, l, r; refine (conj eq_refl _); repeat split; assumption.
      * split.
        -- intros H; injection H as <-; exists [], x, rest; simpl.
           repeat split; auto.
        -- intros ([|y pre] & l & r & E & Hf & H1 & H2 & H3).
           ++ injection E as -> ->; subst; reflexivity.
           ++ injection E as -> ->; inversion Hf as [|? ? Hy]; subst.
              destruct Hy; [congruence|lia].
Qed.

(** ** Recovery *)

(** C7: when the stored checksum differs from the one recomputed over the
    log blocks, [recover_from_log] only reads and prints the mismatch
    message: no replay, no [bwrite]; log, cache and disk are unchanged and
    it returns normally (no [panic]). *)
Theorem recovery_mismatch_no_replay m :
  get_u32 (cache m (start (lg m))) 0 <> log_sum (cache m) (lg m) (1 + 1) mod BSIZE ->
  recover_from_log m =
  Done tt (mk_machine (lg m) (cache m) (disk m) (dirty m)
     (trace m ++ [EvRead (start (lg m))]
        ++ map (fun i => EvRead (start (lg m) + i + (1 + 1))) (upto (lh_n (lg m)))
        ++ [EvPrint "boot log checksum mismatch, will not commit log." []])).
Proof.
  destruct m as [L C D Dt tr]; cbn [lg cache disk dirty trace]; intros Hne.
  unfold recover_from_log; run_get; run_get.
  run checksum_log_blocks_spec.
  cbn [lg cache disk dirty trace].
  rewrite (proj2 (Z.eqb_neq _ _) Hne).
  unfold cprintf, emit; cbn [lg cache disk dirty trace]; rewrite <- !app_assoc; reflexivity.
Qed.

(** C3: at boot the in-memory [lh.n] is still 0 (the global [log] is
    zero-initialised and [initlog] does not set it), so the recomputed
    checksum is 0 whatever the log blocks hold: recovery replays (reads the
    header, installs, truncates) exactly when the 32-bit value in bytes
    0..3 of the checksum block is 0, and otherwise only prints the
    mismatch message. *)
Theorem boot_recovery_checksum_zero dv ls nl d :
  sizeof_logheader < BSIZE ->
  initlog dv ls nl (boot d) =
  let L := mk_log false ls nl 0 false dv 0 0 (fun _ => 0) in
  if get_u32 (d ls) 0 =? 0 then
    (read_head;; install_trans;; l <- get_log;; set_log (set_n l 0);; write_head)
      (mk_machine L d d (fun _ => false)
         [EvRead ls; EvPrint "boot log checksum match, proceding with log commit. " []])
  else
    Done tt (mk_machine L d d (fun _ => false)
      [EvRead ls; EvPrint "boot log checksum mismatch, will not commit log." []]).
Proof.
  intros H; unfold initlog, boot.
  rewrite (proj2 (Z.leb_gt _ _) H).
  run_get; run_get; unfold recover_from_log; run_get; run_get.
  run checksum_log_blocks_spec.
  cbn [lg cache disk dirty trace log0 start outstanding committing lh_n lh_block].
  change (log_sum d _ (1 + 1)) with 0.
  rewrite Zmod_0_l.
  destruct (get_u32 (d ls) 0 =? 0); reflexivity.
Qed.


(** ** Further properties of the code *)

Lemma upd_same {A} (f : Z -> A) k v x : x = k -> upd f k v x = v.
Proof. intros ->; unfold upd; now rewrite Z.eqb_refl. Qed.

Lemma upd_other {A} (f : Z -> A) k v x : x <> k -> upd f k v x = f x.
Proof. intros H; unfold upd; now rewrite (proj2 (Z.eqb_neq _ _) H). Qed.

Ltac upds := repeat ((rewrite upd_same by lia) || (rewrite upd_other by lia)).

Lemma for_each_app l1 l2 f m :
  for_each (l1 ++ l2) f m = (for_each l1 f;; for_each l2 f) m.
Proof.
  revert m; induction l1 as [|i l1 IH]; intros m; [reflexivity|].
  simpl; unfold bind at 1 2 3.
  destruct (f i m) as [[] m1|s m1]; [apply IH|reflexivity].
Qed.

(** The [for (j = 0; j < n; j++)] loop with an invariant indexed by the
    number of iterations done. *)
Lemma for_each_upto_nat (P : Z -> machine -> Prop) f m k :
  P 0 m ->
  (forall j mj, 0 <= j < Z.of_nat k -> P j mj ->
     exists mj', f j mj = Done tt mj' /\ P (j + 1) mj') ->
  exists m', for_each (upto (Z.of_nat k)) f m = Done tt m' /\ P (Z.of_nat k) m'.
Proof.
  intros H0; induction k as [|k IH]; intros Hf.
  - exists m; split; [reflexivity|exact H0].
  - destruct IH as (m1 & E1 & P1); [intros j mj Hj; apply Hf; lia|].
    destruct (Hf (Z.of_nat k) m1 ltac:(lia) P1) as (m2 & E2 & P2).
    exists m2; rewrite Nat2Z.inj_succ, <- Z.add_1_r, upto_succ, for_each_app by lia.
    split; [|exact P2].
    cbn [for_each]; unfold bind; rewrite E1; cbv beta; rewrite E2; reflexivity.
Qed.

Lemma for_each_upto (P : Z -> machine -> Prop) f m n :
  0 <= n -> P 0 m ->
  (forall j mj, 0 <= j < n -> P j mj ->
     exists mj', f j mj = Done tt mj' /\ P (j + 1) mj') ->
  exists m', for_each (upto n) f m = Done tt m' /\ P n m'.
Proof.
  intros Hn H0 Hf; rewrite <- (Z2Nat.id n Hn) in *.
  apply for_each_upto_nat; assumption.
Qed.

(** *** Byte encodings *)

Lemma Zmod_mul_r a b c :
  0 < b -> 0 < c -> a mod (b * c) = a mod b + b * ((a / b) mod c).
Proof.
  intros Hb Hc; symmetry.
  pose proof (Z.mod_pos_bound a b Hb); pose proof (Z.mod_pos_bound (a / b) c Hc).
  pose proof (Z.div_mod a b ltac:(lia)); pose proof (Z.div_mod (a / b) c ltac:(lia)).
  apply Z.mod_unique with (q := a / b / c); [left; nia|nia].
Qed.

Lemma u32_bytes v :
  v mod 2 ^ 32 =
  v mod 256 + v / 2 ^ 8 mod 256 * 2 ^ 8 + v / 2 ^ 16 mod 256 * 2 ^ 16
  + v / 2 ^ 24 mod 256 * 2 ^ 24.
Proof.
  replace (2 ^ 32) with (256 * (256 * (256 * 256))) by reflexivity.
  rewrite !Zmod_mul_r by lia.
  rewrite !Z.div_div by lia.
  change (2 ^ 8) with 256; change (2 ^ 16) with (256 * 256);
  change (2 ^ 24) with (256 * (256 * 256)).
  rewrite <- (Z.mul_assoc 256 256 256); ring.
Qed.

Lemma get_u32_frame d d' o :
  (forall x, o <= x < o + 4 -> d' x = d x) -> get_u32 d' o = get_u32 d o.
Proof. intros H; unfold get_u32; rewrite !H by lia; reflexivity. Qed.

Lemma put_u32_other d o v x : ~ (o <= x < o + 4) -> put_u32 d o v x = d x.
Proof. intros H; unfold put_u32; upds; reflexivity. Qed.

Lemma get_put_u32 d o v : get_u32 (put_u32 d o v) o = v mod 2 ^ 32.
Proof.
  unfold get_u32, put_u32; upds; unfold u32, uchar.
  rewrite !Z.shiftr_div_pow2, !Z.shiftl_mul_pow2 by lia.
  rewrite <- u32_bytes; apply Z.mod_mod; lia.
Qed.

Lemma get_int_put d o v :
  - 2 ^ 31 <= v < 2 ^ 31 -> get_int (put_u32 d o v) o = v.
Proof.
  intros Hv; unfold get_int; rewrite get_put_u32.
  destruct (Z_le_gt_dec 0 v).
  - rewrite Z.mod_small by lia.
    destruct (Z.ltb_spec v (2 ^ 31)); lia.
  - replace (v mod 2 ^ 32) with (v + 2 ^ 32)
      by (apply Z.mod_unique with (q := -1); lia).
    destruct (Z.ltb_spec (v + 2 ^ 32) (2 ^ 31)); lia.
Qed.

(** *** The header block *)

Lemma fold_put_other (blk : Z -> Z) l d x :
  (forall i, In i l -> ~ (4 + 4 * i <= x < 4 + 4 * i + 4)) ->
  fold_left (fun d i => put_u32 d (4 + 4 * i) (blk i)) l d x = d x.
Proof.
  revert d; induction l as [|i l IH]; intros d Hl; [reflexivity|].
  cbn [fold_left]; rewrite IH by (intros j Hj; apply Hl; right; exact Hj).
  apply put_u32_other, Hl; left; reflexivity.
Qed.

Lemma fold_put_get (blk : Z -> Z) l d j :
  NoDup l -> In j l ->
  get_u32 (fold_left (fun d i => put_u32 d (4 + 4 * i) (blk i)) l d) (4 + 4 * j) =
  blk j mod 2 ^ 32.
Proof.
  revert d; induction l as [|i l IH]; intros d Hnd Hj; [destruct Hj|].
  inversion Hnd as [|? ? Hi Hnd']; subst; cbn [fold_left].
  destruct (Z.eq_dec i j) as [<-|Hij].
  - rewrite (get_u32_frame (put_u32 d (4 + 4 * i) (blk i))).
    + apply get_put_u32.
    + intros x Hx; apply fold_put_other.
      intros k Hk; assert (k <> i) by congruence; lia.
  - apply IH; [exact Hnd'|destruct Hj; [congruence|assumption]].
Qed.

Lemma upto_NoDup n : NoDup (upto n).
Proof.
  unfold upto; generalize (seq_NoDup (Z.to_nat n) 0).
  induction 1 as [|a l Ha Hl IH]; simpl; constructor; [|exact IH].
  rewrite in_map_iff; intros (b & E & Hb); apply Nat2Z.inj in E; subst; contradiction.
Qed.

(** The header image decodes to the count and the entries it was built from. *)
Lemma encode_head_fields l buf :
  - 2 ^ 31 <= lh_n l < 2 ^ 31 ->
  (forall i, 0 <= i < lh_n l -> - 2 ^ 31 <= lh_block l i < 2 ^ 31) ->
  head_n (encode_head l buf) = lh_n l /\
  (forall i, 0 <= i < lh_n l -> head_block (encode_head l buf) i = lh_block l i).
Proof.
  intros Hn Hb; unfold head_n, head_block, encode_head; split.
  - transitivity (get_int (put_u32 buf 0 (lh_n l)) 0); [|apply get_int_put; exact Hn].
    unfold get_int; rewrite (get_u32_frame (put_u32 buf 0 (lh_n l))); [reflexivity|].
    intros x Hx; apply fold_put_other; intros i Hi; apply in_upto in Hi; lia.
  - intros i Hi; unfold get_int; rewrite fold_put_get by (apply upto_NoDup || apply in_upto; lia).
    specialize (Hb i Hi).
    destruct (Z_le_gt_dec 0 (lh_block l i)).
    + rewrite Z.mod_small by lia. destruct (Z.ltb_spec (lh_block l i) (2 ^ 31)); lia.
    + replace (lh_block l i mod 2 ^ 32) with (lh_block l i + 2 ^ 32)
        by (apply Z.mod_unique with (q := -1); lia).
      destruct (Z.ltb_spec (lh_block l i + 2 ^ 32) (2 ^ 31)); lia.
Qed.

Lemma write_head_frame L C D Dt tr :
  exists D' tr', write_head (mk_machine L C D Dt tr) =
    Done tt (mk_machine L (upd C (start L + 1) (encode_head L (C (start L + 1))))
                        D' Dt tr') /\
    D' (start L + 1) = encode_head L (C (start L + 1)) /\
    (forall x, x <> start L + 1 -> D' x = D x) /\
    writes tr' = writes tr ++ [start L + 1].
Proof.
  unfold write_head; step; step; cbv zeta; step; rewrite bwrite_run.
  eexists _, _; split; [reflexivity|]; split; [upds; reflexivity|]; split.
  - intros x Hx; upds; reflexivity.
  - rewrite !writes_app; cbn [writes app]; rewrite <- app_assoc; reflexivity.
Qed.

Lemma read_head_run L C D Dt tr :
  exists blk, read_head (mk_machine L C D Dt tr) =
    Done tt (mk_machine (mk_log (lock_held L) (start L) (size L) (outstanding L)
                           (committing L) (dev L) (checksum L)
                           (head_n (C (start L + 1))) blk)
                        C D Dt (tr ++ [EvRead (start L + 1)])) /\
    (forall i, 0 <= i < head_n (C (start L + 1)) ->
       blk i = head_block (C (start L + 1)) i) /\
    (forall i, ~ (0 <= i < head_n (C (start L + 1))) -> blk i = lh_block L i).
Proof.
  unfold read_head; step; step; cbv zeta; step.
  destruct (Z_lt_le_dec (get_int (C (start L + 1)) 0) 0) as [Hneg|Hpos].
  - replace (upto (get_int (C (start L + 1)) 0)) with (@nil Z)
      by (unfold upto; replace (Z.to_nat _) with 0%nat by lia; reflexivity).
    exists (lh_block L); split; [reflexivity|]; split; intros i Hi;
      [unfold head_n in Hi; lia|reflexivity].
  - set (h := C (start L + 1)) in *.
    match goal with |- context [for_each (upto ?n) ?f ?m0] =>
      destruct (for_each_upto
        (fun k mk => exists blk, mk = mk_machine (mk_log (lock_held L) (start L) (size L)
                      (outstanding L) (committing L) (dev L) (checksum L) n blk)
                      C D Dt (tr ++ [EvRead (start L + 1)]) /\
           (forall i, 0 <= i < k -> blk i = head_block h i) /\
           (forall i, ~ (0 <= i < k) -> blk i = lh_block L i)) f m0 n Hpos)
        as (m' & E & blk & -> & H1 & H2) end.
    + exists (lh_block L); split; [reflexivity|]; split; intros; [lia|reflexivity].
    + intros j mj Hj (blk & -> & H1 & H2).
      eexists; split; [reflexivity|].
      exists (upd blk j (head_block h j)); split; [reflexivity|]; split.
      * intros i Hi; destruct (Z.eq_dec i j) as [->|Hij]; upds; [reflexivity|].
        apply H1; lia.
      * intros i Hi; upds; apply H2; lia.
    + exists blk; split; [exact E|split; assumption].
Qed.

(** [write_head] followed by [read_head]: the header block on disk holds
    [lh.n] and [lh.block[0..n)] as 32-bit [int]s, and reading it back
    restores the in-memory log exactly (every field, every entry of
    [lh.block]), when the count and the block numbers fit in an [int], the
    count is within the array [lh.block[LOGSIZE]] and the header fits in a
    block, as [initlog] checks. *)
Theorem header_round_trip L C D Dt tr :
  sizeof_logheader < BSIZE ->
  0 <= lh_n L < 2 ^ 31 -> lh_n L <= LOGSIZE ->
  (forall i, 0 <= i < lh_n L -> - 2 ^ 31 <= lh_block L i < 2 ^ 31) ->
  exists m', (write_head;; read_head) (mk_machine L C D Dt tr) = Done tt m' /\
    head_n (disk m' (start L + 1)) = lh_n L /\
    (forall i, 0 <= i < lh_n L -> head_block (disk m' (start L + 1)) i = lh_block L i) /\
    exists blk, lg m' = mk_log (lock_held L) (start L) (size L) (outstanding L)
                          (committing L) (dev L) (checksum L) (lh_n L) blk /\
                (forall i, blk i = lh_block L i).
Proof.
  intros _ Hn _ Hb.
  destruct (write_head_frame L C D Dt tr) as (D' & tr' & E1 & HD1 & _ & _).
  run E1.
  destruct (read_head_run L (upd C (start L + 1) (encode_head L (C (start L + 1))))
              D' Dt tr') as (blk & E2 & H1 & H2).
  rewrite E2; eexists; split; [reflexivity|].
  cbn [disk lg]; rewrite HD1.
  rewrite upd_same in H1, H2 by reflexivity.
  destruct (encode_head_fields L (C (start L + 1))) as (Fn & Fb); [lia|exact Hb|].
  rewrite Fn in H1, H2 |- *.
  split; [reflexivity|]; split; [exact Fb|].
  exists blk; rewrite upd_same by reflexivity; rewrite Fn; split; [reflexivity|].
  intros i; destruct (Z_le_gt_dec 0 i); destruct (Z_lt_ge_dec i (lh_n L)).
  - rewrite H1, Fb by lia; reflexivity.
  - apply H2; lia.
  - apply H2; lia.
  - apply H2; lia.
Qed.

(** *** Contents moved by commit *)

Lemma write_checksum_frame L C D Dt tr :
  exists D', write_checksum (mk_machine L C D Dt tr) =
    Done tt (mk_machine (set_checksum L (log_sum C L 1 mod BSIZE))
               (upd C (start L) (put_u32 (C (start L)) 0 (log_sum C L 1 mod BSIZE))) D' Dt
               (tr ++ map (fun i => EvRead (start L + i + 1)) (upto (lh_n L)) ++
                [EvPrint "write_checksum() - log checksum calculated as: %x "
                   [log_sum C L 1 mod BSIZE];
                 EvRead (start L);
                 EvWrite (start L) (put_u32 (C (start L)) 0 (log_sum C L 1 mod BSIZE));
                 EvRead (start L);
                 EvPrint "disk written checksum data: %x "
                   [get_u32 (put_u32 (C (start L)) 0 (log_sum C L 1 mod BSIZE)) 0]])) /\
    D' (start L) = put_u32 (C (start L)) 0 (log_sum C L 1 mod BSIZE) /\
    (forall x, x <> start L -> D' x = D x).
Proof.
  unfold write_checksum; run checksum_log_blocks_spec; cbv zeta.
  repeat step; rewrite cprintf_run.
  eexists; split.
  - cbn [set_checksum start lg].
    rewrite !upd_same by reflexivity; rewrite <- !app_assoc; reflexivity.
  - split; [upds; reflexivity|intros x Hx; upds; reflexivity].
Qed.

Lemma check_checksum_run L C D Dt tr :
  exists tr', check_checksum (mk_machine L C D Dt tr) =
    Done (if checksum L =? log_sum C L 1 mod BSIZE then 1 else 0)
         (mk_machine L C D Dt tr') /\ writes tr' = writes tr.
Proof.
  unfold check_checksum; run checksum_log_blocks_spec; cbv zeta.
  step; step; step.
  destruct (_ =? _); step; (eexists; split; [reflexivity|]);
    rewrite !writes_app, writes_map_read; cbn [writes app]; rewrite ?app_nil_r; reflexivity.
Qed.

(** [write_log] copies each cached block [lh.block[t]] into the log block
    [start+t+2], in the cache and on disk, and touches no other block, as
    long as no staged block is itself one of the log blocks. *)
Lemma write_log_copies L C D Dt tr :
  0 <= lh_n L ->
  (forall t, 0 <= t < lh_n L ->
     ~ (start L + 2 <= lh_block L t < start L + 2 + lh_n L)) ->
  exists m', write_log (mk_machine L C D Dt tr) = Done tt m' /\ lg m' = L /\
    (forall t, 0 <= t < lh_n L ->
       cache m' (start L + t + 1 + 1) = C (lh_block L t) /\
       disk m' (start L + t + 1 + 1) = C (lh_block L t)) /\
    (forall x, ~ (start L + 2 <= x < start L + 2 + lh_n L) ->
       cache m' x = C x /\ disk m' x = D x).
Proof.
  intros Hn Hout; unfold write_log; step.
  match goal with |- context [for_each (upto ?n) ?f ?m0] =>
    destruct (for_each_upto
      (fun k mk => lg mk = L /\
         (forall t, 0 <= t < k ->
            cache mk (start L + t + 1 + 1) = C (lh_block L t) /\
            disk mk (start L + t + 1 + 1) = C (lh_block L t)) /\
         (forall x, ~ (start L + 2 <= x < start L + 2 + k) ->
            cache mk x = C x /\ disk mk x = D x)) f m0 n Hn)
      as (m' & E & P1 & P2 & P3) end.
  - split; [reflexivity|]; split; [intros; lia|]; intros; split; reflexivity.
  - intros j [L' C' D' Dt' tr'] Hj (HL & H1 & H2); cbn [lg cache disk] in *; subst L'.
    assert (Hb : C' (lh_block L j) = C (lh_block L j))
      by (apply H2; specialize (Hout j Hj); lia).
    eexists; split; [reflexivity|]; cbn [lg cache disk].
    split; [reflexivity|]; split.
    + intros t Ht; destruct (Z.eq_dec t j) as [->|Htj].
      * upds; rewrite Hb; split; reflexivity.
      * upds; apply H1; lia.
    + intros x Hx; upds; apply H2; lia.
  - exists m'; split; [exact E|]; split; [exact P1|]; split; [exact P2|exact P3].
Qed.

(** [install_trans] copies each log block [start+t+2] to its home block
    [lh.block[t]], in the cache and on disk, and touches no other block, as
    long as no home block is a log block and two slots logged for the same
    home block hold the same data. *)
Lemma install_trans_copies L C D Dt tr :
  0 <= lh_n L ->
  (forall t, 0 <= t < lh_n L ->
     ~ (start L + 2 <= lh_block L t < start L + 2 + lh_n L)) ->
  (forall t t', 0 <= t < lh_n L -> 0 <= t' < lh_n L ->
     lh_block L t = lh_block L t' ->
     C (start L + t + 1 + 1) = C (start L + t' + 1 + 1)) ->
  exists m', install_trans (mk_machine L C D Dt tr) = Done tt m' /\ lg m' = L /\
    (forall t, 0 <= t < lh_n L ->
       cache m' (lh_block L t) = C (start L + t + 1 + 1) /\
       disk m' (lh_block L t) = C (start L + t + 1 + 1)) /\
    (forall x, (forall t, 0 <= t < lh_n L -> x <> lh_block L t) ->
       cache m' x = C x /\ disk m' x = D x).
Proof.
  intros Hn Hout Hsame; unfold install_trans; step.
  match goal with |- context [for_each (upto ?n) ?f ?m0] =>
    destruct (for_each_upto
      (fun k mk => lg mk = L /\
         (forall t, 0 <= t < k ->
            cache mk (lh_block L t) = C (start L + t + 1 + 1) /\
            disk mk (lh_block L t) = C (start L + t + 1 + 1)) /\
         (forall x, (forall t, 0 <= t < k -> x <> lh_block L t) ->
            cache mk x = C x /\ disk mk x = D x)) f m0 n Hn)
      as (m' & E & P1 & P2 & P3) end.
  - split; [reflexivity|]; split; [intros; lia|]; intros; split; reflexivity.
  - intros j [L' C' D' Dt' tr'] Hj (HL & H1 & H2); cbn [lg cache disk] in *; subst L'.
    assert (Hs : C' (start L + j + 1 + 1) = C (start L + j + 1 + 1)).
    { apply H2; intros t Ht E; specialize (Hout t ltac:(lia)); lia. }
    eexists; split; [reflexivity|]; cbn [lg cache disk].
    split; [reflexivity|]; split.
    + intros t Ht.
      destruct (Z.eq_dec (lh_block L t) (lh_block L j)) as [Etj|Etj].
      * rewrite Etj; upds; rewrite Hs, (Hsame t j) by lia; split; reflexivity.
      * assert (t <> j) by (intros ->; apply Etj; reflexivity).
        upds; apply H1; lia.
    + intros x Hx; assert (x <> lh_block L j) by (apply Hx; lia).
      upds; apply H2; intros t Ht; apply Hx; lia.
  - exists m'; split; [exact E|]; split; [exact P1|]; split; [exact P2|exact P3].
Qed.

Lemma commit_copies L C D Dt tr :
  0 < lh_n L ->
  (forall t, 0 <= t < lh_n L ->
     lh_block L t < start L \/ start L + 1 + lh_n L < lh_block L t) ->
  exists m' cs, commit (mk_machine L C D Dt tr) = Done tt m' /\
    lg m' = set_n (set_checksum L cs) 0 /\
    (forall t, 0 <= t < lh_n L ->
       disk m' (lh_block L t) = C (lh_block L t) /\
       disk m' (start L + t + 1 + 1) = C (lh_block L t)) /\
    head_n (disk m' (start L + 1)) = 0.
Proof.
  intros Hn Hout.
  unfold commit; step.
  rewrite (proj2 (Z.ltb_lt _ _) Hn); cbv iota.
  destruct (write_log_copies L C D Dt tr) as (m1 & E1 & HL1 & S1 & F1);
    [lia|intros t Ht; specialize (Hout t Ht); lia|].
  run E1. destruct m1 as [L1 C1 D1 Dt1 tr1]; cbn [lg cache disk] in HL1, S1, F1; subst L1.
  destruct (write_checksum_frame L C1 D1 Dt1 tr1) as (D2 & E2 & HD2a & HD2b).
  run E2.
  match goal with |- context [bind check_checksum _ (mk_machine ?L2 ?C2 ?D2 ?Dt2 ?tr2)] =>
    destruct (check_checksum_run L2 C2 D2 Dt2 tr2) as (tr3 & E3 & _) end.
  run E3.
  match goal with |- context [log_sum ?C2 (set_checksum L ?cs) 1] =>
    replace (log_sum C2 (set_checksum L cs) 1) with (log_sum C1 L 1)
      by (symmetry; apply (log_sum_frame C1 C2 L 1); [lia|];
          intros x Hx; upds; reflexivity) end.
  cbn [checksum set_checksum]; rewrite Z.eqb_refl; change (negb (1 =? 0)) with true;
    cbv iota.
  match goal with |- context [bind write_head _ (mk_machine ?L3 ?C3 ?D3 ?Dt3 ?tr3')] =>
    destruct (write_head_frame L3 C3 D3 Dt3 tr3') as (D4 & tr4 & E4 & HD4a & HD4b & _) end.
  run E4.
  match goal with |- context [bind install_trans _ (mk_machine ?L4 ?C4 ?D4' ?Dt4 ?tr4')] =>
    destruct (install_trans_copies L4 C4 D4' Dt4 tr4') as (m5 & E5 & HL5 & S5 & F5) end;
    cbn [lh_n lh_block start set_checksum] in *.
  - lia.
  - intros t Ht; specialize (Hout t Ht); lia.
  - intros t t' Ht Ht' Eb; upds; rewrite (proj1 (S1 t Ht)), (proj1 (S1 t' Ht')), Eb;
      reflexivity.
  - run E5. destruct m5 as [L5 C5 D5 Dt5 tr5]; cbn [lg cache disk] in HL5, S5, F5.
    subst L5. step; step.
    match goal with |- context [write_head (mk_machine ?L6 ?C6 ?D6 ?Dt6 ?tr6)] =>
      destruct (write_head_frame L6 C6 D6 Dt6 tr6) as (D7 & tr7 & E7 & HD7a & HD7b & _) end.
    rewrite E7. eexists _, _; split; [reflexivity|].
    cbn [lg disk]; split; [reflexivity|]; split.
    + intros t Ht; pose proof (Hout t Ht) as Hot; cbn [start set_n set_checksum].
      cbn [start set_n set_checksum] in HD7b, HD4b; rewrite !HD7b by lia.
      destruct (S5 t Ht) as [_ ->]; split.
      * upds; apply S1; exact Ht.
      * assert (Hnot : forall t', 0 <= t' < lh_n L ->
                  start L + t + 1 + 1 <> lh_block L t')
          by (intros t' Ht'; specialize (Hout t' Ht'); lia).
        rewrite (proj2 (F5 _ Hnot)), HD4b, HD2b by lia.
        apply S1; exact Ht.
    + cbn [start set_n set_checksum] in HD7a |- *; rewrite HD7a.
      apply (encode_head_fields (set_n (set_checksum L _) 0)); cbn [lh_n set_n]; lia.
Qed.

Lemma recover_replays L C D Dt tr :
  get_u32 (C (start L)) 0 = log_sum C L (1 + 1) mod BSIZE ->
  0 <= head_n (C (start L + 1)) ->
  (forall t, 0 <= t < head_n (C (start L + 1)) ->
     head_block (C (start L + 1)) t < start L \/
     start L + 1 + head_n (C (start L + 1)) < head_block (C (start L + 1)) t) ->
  (forall t t', 0 <= t < head_n (C (start L + 1)) -> 0 <= t' < head_n (C (start L + 1)) ->
     head_block (C (start L + 1)) t = head_block (C (start L + 1)) t' ->
     C (start L + t + 1 + 1) = C (start L + t' + 1 + 1)) ->
  exists m', recover_from_log (mk_machine L C D Dt tr) = Done tt m' /\
    (forall t, 0 <= t < head_n (C (start L + 1)) ->
       disk m' (head_block (C (start L + 1)) t) = C (start L + t + 1 + 1)) /\
    (forall x, x <> start L + 1 ->
       (forall t, 0 <= t < head_n (C (start L + 1)) -> x <> head_block (C (start L + 1)) t) ->
       disk m' x = D x) /\
    head_n (disk m' (start L + 1)) = 0 /\ lh_n (lg m') = 0.
Proof.
  intros Hcs Hn Hout Hsame.
  unfold recover_from_log; step; step; cbv zeta.
  run checksum_log_blocks_spec.
  rewrite (proj2 (Z.eqb_eq _ _) Hcs); cbv iota.
  step.
  destruct (read_head_run L C D Dt
              (tr ++ [EvRead (start L)] ++
               map (fun i => EvRead (start L + i + (1 + 1))) (upto (lh_n L)) ++
               [EvPrint "boot log checksum match, proceding with log commit. " []]))
    as (blk & E1 & B1 & B2).
  rewrite <- !app_assoc in E1 |- *. run E1.
  match goal with |- context [bind install_trans _ (mk_machine ?L4 ?C4 ?D4 ?Dt4 ?tr4)] =>
    destruct (install_trans_copies L4 C4 D4 Dt4 tr4) as (m5 & E5 & HL5 & S5 & F5) end;
    cbn [lh_n lh_block start] in *.
  - exact Hn.
  - intros t Ht; rewrite B1 by exact Ht; specialize (Hout t Ht); lia.
  - intros t t' Ht Ht'; rewrite !B1 by assumption; apply Hsame; assumption.
  - run E5. destruct m5 as [L5 C5 D5 Dt5 tr5]; cbn [lg cache disk] in HL5, S5, F5.
    subst L5. step; step.
    match goal with |- context [write_head (mk_machine ?L6 ?C6 ?D6 ?Dt6 ?tr6)] =>
      destruct (write_head_frame L6 C6 D6 Dt6 tr6) as (D7 & tr7 & E7 & HD7a & HD7b & _) end.
    cbn [start set_n] in HD7a, HD7b.
    rewrite E7; eexists; split; [reflexivity|]; cbn [disk lg start set_n lh_n].
    split; [|split; [|split]].
    + intros t Ht; pose proof (Hout t Ht) as Hot.
      rewrite HD7b by lia; rewrite <- B1 by exact Ht.
      apply (S5 t Ht).
    + intros x Hx Hxh; rewrite HD7b by exact Hx.
      apply F5; intros t Ht; rewrite B1 by exact Ht; apply Hxh; exact Ht.
    + rewrite HD7a.
      apply (encode_head_fields (set_n _ 0)); cbn [lh_n set_n]; lia.
    + reflexivity.
Qed.

Lemma end_op_prefix L C D Dt tr :
  committing L = false -> outstanding L = 1 ->
  end_op (mk_machine L C D Dt tr) =
  (commit;; acquire;; l <- get_log;; set_log (set_committing l false);; wakeup;; release)
    (mk_machine (set_lock (set_committing (set_outstanding L 0) true) false) C D Dt tr).
Proof.
  intros Hc Ho; unfold end_op; step; step; step; step.
  cbn [lg committing outstanding set_outstanding set_lock]; rewrite Hc, Ho; cbv iota.
  change (1 - 1 =? 0) with true; cbv iota.
  run_get. step. cbv iota. reflexivity.
Qed.

Lemma end_op_last_run L C D Dt tr :
  committing L = false -> outstanding L = 1 -> 0 < lh_n L ->
  (forall t, 0 <= t < lh_n L ->
     lh_block L t < start L \/ start L + 1 + lh_n L < lh_block L t) ->
  exists m', end_op (mk_machine L C D Dt tr) = Done tt m' /\
    (forall t, 0 <= t < lh_n L -> disk m' (lh_block L t) = C (lh_block L t)) /\
    head_n (disk m' (start L + 1)) = 0 /\
    lh_n (lg m') = 0 /\ outstanding (lg m') = 0 /\
    committing (lg m') = false /\ lock_held (lg m') = false.
Proof.
  intros Hc Ho Hn Hout.
  rewrite end_op_prefix by assumption.
  destruct (commit_copies (set_lock (set_committing (set_outstanding L 0) true) false)
              C D Dt tr) as (m1 & cs & E1 & HL1 & S1 & H1); [exact Hn|exact Hout|].
  run E1. destruct m1 as [L1 C1 D1 Dt1 tr1]; cbn [lg disk] in HL1, S1, H1; subst L1.
  step; step; step; run_get; rewrite release_run.
  eexists; split; [reflexivity|]; cbn [lg disk].
  split; [intros t Ht; apply S1; exact Ht|]; split; [exact H1|].
  repeat split.
Qed.

Lemma log_write_frame b m m' :
  log_write b m = Done tt m' ->
  cache m' = cache m /\ disk m' = disk m /\ trace m' = trace m /\
  start (lg m') = start (lg m) /\ committing (lg m') = committing (lg m) /\
  lock_held (lg m') = false.
Proof.
  destruct m as [L C D Dt tr]; unfold log_write; step.
  destruct ((LOGSIZE <=? lh_n L) || (size L - 1 - 1 <=? lh_n L));
    [intros H; discriminate H|].
  destruct (outstanding L <? 1); [intros H; discriminate H|].
  step; step; step; step; rewrite release_run.
  intros H; injection H as <-; cbn [cache disk trace lg].
  destruct (_ =? _); repeat split.
Qed.

(** A run of [log_write]s from an empty-handed caller: no I/O, the fields
    [start], [size], [outstanding] and [committing] kept, and the staged
    list only gains recorded blocks. *)
Lemma log_writes_frame bs : forall m m',
  0 <= lh_n (lg m) ->
  log_writes bs m = Done tt m' ->
  cache m' = cache m /\ disk m' = disk m /\
  start (lg m') = start (lg m) /\ size (lg m') = size (lg m) /\
  outstanding (lg m') = outstanding (lg m) /\ committing (lg m') = committing (lg m) /\
  incl (staged (lg m')) (staged (lg m) ++ bs).
Proof.
  induction bs as [|b bs IH]; intros m m' Hn Hr.
  - simpl in Hr; injection Hr as <-; rewrite app_nil_r.
    repeat split; apply incl_refl.
  - apply for_each_cons_done in Hr as (m1 & E1 & Hr).
    destruct (log_write_done b m m1 Hn E1) as (_ & _ & _ & Sz & Out & S1 & N1).
    destruct (log_write_frame b m m1 E1) as (C1 & D1 & _ & St1 & Cm1 & _).
    destruct (IH m1 m') as (C2 & D2 & St2 & Sz2 & Out2 & Cm2 & I2);
      [destruct (existsb _ _); lia|exact Hr|].
    refine (conj (eq_trans C2 C1) (conj (eq_trans D2 D1) (conj (eq_trans St2 St1)
      (conj (eq_trans Sz2 Sz) (conj (eq_trans Out2 Out) (conj (eq_trans Cm2 Cm1) _)))))).
    intros x Hx; apply I2, in_app_or in Hx as [Hx|Hx].
    + rewrite S1 in Hx; destruct (existsb _ _).
      * apply in_or_app; left; exact Hx.
      * apply in_app_or in Hx as [Hx|[<-|[]]]; apply in_or_app; [left; exact Hx|].
        right; left; reflexivity.
    + apply in_or_app; right; right; exact Hx.
Qed.

(** *** Extra properties *)

(** [write_checksum] stores [log.checksum] in bytes 0..3 of the checksum
    block [log.start] and writes no other block; reading the block back
    gives the stored value, so its two messages print the same number
    (the checksum is below [BSIZE], hence fits in 32 bits). *)
Theorem write_checksum_readback L C D Dt tr :
  0 < BSIZE <= 2 ^ 32 ->
  exists m', write_checksum (mk_machine L C D Dt tr) = Done tt m' /\
    checksum (lg m') = log_sum C L 1 mod BSIZE /\
    get_u32 (disk m' (start L)) 0 = checksum (lg m') /\
    (forall x, x <> start L -> disk m' x = D x) /\
    trace m' = tr ++ map (fun i => EvRead (start L + i + 1)) (upto (lh_n L)) ++
      [EvPrint "write_checksum() - log checksum calculated as: %x " [checksum (lg m')];
       EvRead (start L); EvWrite (start L) (disk m' (start L)); EvRead (start L);
       EvPrint "disk written checksum data: %x " [checksum (lg m')]].
Proof.
  intros HB.
  destruct (write_checksum_frame L C D Dt tr) as (D' & E & HDa & HDb).
  rewrite E; eexists; split; [reflexivity|]; cbn [lg disk trace checksum set_checksum].
  assert (Hr : get_u32 (put_u32 (C (start L)) 0 (log_sum C L 1 mod BSIZE)) 0 =
               log_sum C L 1 mod BSIZE).
  { rewrite get_put_u32; apply Z.mod_small.
    pose proof (Z.mod_pos_bound (log_sum C L 1) BSIZE ltac:(lia)); lia. }
  rewrite HDa, Hr; split; [reflexivity|]; split; [reflexivity|].
  split; [exact HDb|reflexivity].
Qed.

(** [write_log] copies every staged block from the cache to its log block
    [start+t+2], both in the cache and on disk, and changes no other block,
    provided no staged block is itself one of the log blocks. *)
Theorem write_log_saves_blocks L C D Dt tr :
  0 <= lh_n L ->
  (forall t, 0 <= t < lh_n L ->
     ~ (start L + 2 <= lh_block L t < start L + 2 + lh_n L)) ->
  exists m', write_log (mk_machine L C D Dt tr) = Done tt m' /\ lg m' = L /\
    (forall t, 0 <= t < lh_n L ->
       cache m' (start L + t + 1 + 1) = C (lh_block L t) /\
       disk m' (start L + t + 1 + 1) = C (lh_block L t)) /\
    (forall x, ~ (start L + 2 <= x < start L + 2 + lh_n L) ->
       cache m' x = C x /\ disk m' x = D x).
Proof. intros Hn Hout; apply write_log_copies; assumption. Qed.

(** [install_trans] copies every log block [start+t+2] to its home block
    [lh.block[t]], in the cache and on disk, and changes no other block,
    provided no home block is a log block and two log blocks recorded for
    the same home block hold the same data. *)
Theorem install_trans_installs L C D Dt tr :
  0 <= lh_n L ->
  (forall t, 0 <= t < lh_n L ->
     ~ (start L + 2 <= lh_block L t < start L + 2 + lh_n L)) ->
  (forall t t', 0 <= t < lh_n L -> 0 <= t' < lh_n L ->
     lh_block L t = lh_block L t' ->
     C (start L + t + 1 + 1) = C (start L + t' + 1 + 1)) ->
  exists m', install_trans (mk_machine L C D Dt tr) = Done tt m' /\ lg m' = L /\
    (forall t, 0 <= t < lh_n L ->
       cache m' (lh_block L t) = C (start L + t + 1 + 1) /\
       disk m' (lh_block L t) = C (start L + t + 1 + 1)) /\
    (forall x, (forall t, 0 <= t < lh_n L -> x <> lh_block L t) ->
       cache m' x = C x /\ disk m' x = D x).
Proof. intros Hn Hout Hsame; apply install_trans_copies; assumption. Qed.

(** A non-empty transaction whose blocks lie outside the log area
    [start .. start+n+1]: [commit] returns, every staged block is on disk
    with the contents it had in the cache when [commit] began, its log block
    holds the same data, the header on disk records [n = 0], and the
    in-memory log differs from the original only by [checksum] and
    [lh.n = 0]. *)
Theorem commit_installs_transaction L C D Dt tr :
  0 < lh_n L ->
  (forall t, 0 <= t < lh_n L ->
     lh_block L t < start L \/ start L + 1 + lh_n L < lh_block L t) ->
  exists m' cs, commit (mk_machine L C D Dt tr) = Done tt m' /\
    lg m' = set_n (set_checksum L cs) 0 /\
    (forall t, 0 <= t < lh_n L ->
       disk m' (lh_block L t) = C (lh_block L t) /\
       disk m' (start L + t + 1 + 1) = C (lh_block L t)) /\
    head_n (disk m' (start L + 1)) = 0.
Proof. intros Hn Hout; apply commit_copies; assumption. Qed.

(** When the stored checksum matches, [recover_from_log] replays the log as
    the on-disk header describes it: each home block [block[t]] gets the
    cached contents of log block [start+t+2]; no block other than these and
    the header is written; the header on disk then records [n = 0] and so
    does [log.lh.n].  The header fits in a block (as [initlog] checks), its
    count is within [0, LOGSIZE] (the array [lh.block[LOGSIZE]] that
    [read_head] fills), its home blocks lie outside the log area, and log
    blocks recorded for the same home block agree. *)
Theorem recovery_replays_log L C D Dt tr :
  sizeof_logheader < BSIZE ->
  get_u32 (C (start L)) 0 = log_sum C L (1 + 1) mod BSIZE ->
  0 <= head_n (C (start L + 1)) <= LOGSIZE ->
  (forall t, 0 <= t < head_n (C (start L + 1)) ->
     head_block (C (start L + 1)) t < start L \/
     start L + 1 + head_n (C (start L + 1)) < head_block (C (start L + 1)) t) ->
  (forall t t', 0 <= t < head_n (C (start L + 1)) -> 0 <= t' < head_n (C (start L + 1)) ->
     head_block (C (start L + 1)) t = head_block (C (start L + 1)) t' ->
     C (start L + t + 1 + 1) = C (start L + t' + 1 + 1)) ->
  exists m', recover_from_log (mk_machine L C D Dt tr) = Done tt m' /\
    (forall t, 0 <= t < head_n (C (start L + 1)) ->
       disk m' (head_block (C (start L + 1)) t) = C (start L + t + 1 + 1)) /\
    (forall x, x <> start L + 1 ->
       (forall t, 0 <= t < head_n (C (start L + 1)) -> x <> head_block (C (start L + 1)) t) ->
       disk m' x = D x) /\
    head_n (disk m' (start L + 1)) = 0 /\ lh_n (lg m') = 0.
Proof. intros _ H1 H2 H3 H4; apply recover_replays; [assumption|lia|assumption..]. Qed.

(** [end_op] while a commit is in flight halts with "log.committing", after
    taking the lock and decrementing [outstanding]; nothing is written. *)
Theorem end_op_committing_panics L C D Dt tr :
  committing L = true ->
  end_op (mk_machine L C D Dt tr) =
  Halt "log.committing"
    (mk_machine (set_outstanding (set_lock L true) (outstanding L - 1)) C D Dt tr).
Proof.
  intros Hc; unfold end_op; step; step; step; step.
  cbn [lg committing set_outstanding set_lock]; rewrite Hc; reflexivity.
Qed.

(** [end_op] by an operation that is not the last outstanding one (and no
    commit in flight) only decrements [outstanding] and releases the lock:
    no commit, no read, no write, cache and disk unchanged. *)
Theorem end_op_not_last L C D Dt tr :
  committing L = false -> outstanding L <> 1 ->
  end_op (mk_machine L C D Dt tr) =
  Done tt (mk_machine (set_lock (set_outstanding L (outstanding L - 1)) false) C D Dt tr).
Proof.
  intros Hc Ho; unfold end_op; step; step; step; step.
  cbn [lg committing outstanding set_outstanding set_lock]; rewrite Hc; cbv iota.
  rewrite (proj2 (Z.eqb_neq (outstanding L - 1) 0)) by lia; cbv iota.
  run_get; step; reflexivity.
Qed.

(** [end_op] by the last outstanding operation commits: for a non-empty
    transaction whose blocks lie outside the log area, every staged block
    reaches the disk with its cached contents, the header on disk records
    [n = 0], and the log ends with [lh.n = 0], no outstanding operation, no
    commit in flight and the lock released. *)
Theorem end_op_last_commits L C D Dt tr :
  committing L = false -> outstanding L = 1 -> 0 < lh_n L ->
  (forall t, 0 <= t < lh_n L ->
     lh_block L t < start L \/ start L + 1 + lh_n L < lh_block L t) ->
  exists m', end_op (mk_machine L C D Dt tr) = Done tt m' /\
    (forall t, 0 <= t < lh_n L -> disk m' (lh_block L t) = C (lh_block L t)) /\
    head_n (disk m' (start L + 1)) = 0 /\
    lh_n (lg m') = 0 /\ outstanding (lg m') = 0 /\
    committing (lg m') = false /\ lock_held (lg m') = false.
Proof. intros Hc Ho Hn Hout; apply end_op_last_run; assumption. Qed.

(** A [log_write] that returns does no I/O: cache, disk and trace are
    unchanged; it marks the buffer [B_DIRTY] (and no other) and leaves the
    lock released. *)
Theorem log_write_pins_buffer L C D Dt tr b m' :
  log_write b (mk_machine L C D Dt tr) = Done tt m' ->
  cache m' = C /\ disk m' = D /\ trace m' = tr /\ dirty m' b = true /\
  (forall x, x <> b -> dirty m' x = Dt x) /\ lock_held (lg m') = false.
Proof.
  unfold log_write; step.
  destruct ((LOGSIZE <=? lh_n L) || (size L - 1 - 1 <=? lh_n L));
    [intros H; discriminate H|].
  destruct (outstanding L <? 1); [intros H; discriminate H|].
  step; step; step; step; rewrite release_run.
  intros H; injection H as <-; cbn [cache disk trace dirty lg set_lock lock_held].
  split; [reflexivity|]; split; [reflexivity|]; split; [reflexivity|].
  split; [upds; reflexivity|]; split; [intros x Hx; upds; reflexivity|reflexivity].
Qed.

(** A whole transaction on an idle, empty log: [begin_op] admits the caller,
    its [log_write]s of the blocks [bs] (all outside the log area
    [start .. start+size-1]) return, and its [end_op], being the last,
    commits: every recorded block is then on disk with the contents the
    cache held for it, and the header on disk records [n = 0]. *)
Theorem transaction_durable L L1 C D Dt tr bs m1 :
  lh_n L = 0 -> outstanding L = 0 -> committing L = false ->
  begin_op [L] = Some L1 ->
  bs <> [] ->
  (forall b, In b bs -> b < start L \/ start L + size L <= b) ->
  log_writes bs (mk_machine L1 C D Dt tr) = Done tt m1 ->
  exists m2, end_op m1 = Done tt m2 /\
    (forall b, In b bs -> disk m2 b = C b) /\
    head_n (disk m2 (start L + 1)) = 0.
Proof.
  intros Hn Ho Hc Hb Hne Hout Hr.
  simpl in Hb; rewrite begin_op_check_locked, Hc, Hn, Ho in Hb; cbn [orb] in Hb.
  destruct (LOGSIZE - 2 <? 0 + (0 + 1) * MAXOPBLOCKS); [discriminate|].
  injection Hb as <-.
  set (L1 := set_lock (set_outstanding L (0 + 1)) false) in Hr.
  assert (Hn1 : 0 <= lh_n (lg (mk_machine L1 C D Dt tr))) by (simpl; lia).
  assert (Hnd1 : NoDup (staged (lg (mk_machine L1 C D Dt tr))))
    by (unfold staged; simpl; rewrite Hn; constructor).
  destruct (log_writes_run bs _ m1 Hn1 Hnd1) as (Hn' & _ & _ & Hbs & Hcap & _);
    [simpl; lia|exact Hr|].
  destruct (log_writes_frame bs _ m1 Hn1 Hr) as (Cm & Dm & St & Sz & Out & Cmt & Inc).
  destruct m1 as [Lm Cm1 Dm1 Dtm trm]; cbn [lg cache disk] in *; subst Cm1 Dm1.
  assert (Hst : forall t, 0 <= t < lh_n Lm -> In (lh_block Lm t) bs).
  { intros t Ht.
    pose proof (Inc (lh_block Lm t) ltac:(apply in_map, in_upto; exact Ht)) as H.
    unfold staged, L1 in H; cbn [lh_n set_lock set_outstanding] in H.
    rewrite Hn in H; exact H. }
  assert (Hpos : 0 < lh_n Lm).
  { destruct bs as [|b bs']; [congruence|].
    assert (Hin : In b (staged Lm)) by (apply Hbs; left; reflexivity).
    unfold staged in Hin; apply in_map_iff in Hin as (t & _ & Ht); apply in_upto in Ht.
    lia. }
  unfold L1 in *; cbn [start size outstanding committing set_lock set_outstanding] in *.
  destruct (end_op_last_run Lm C D Dtm trm) as (m2 & E2 & H2 & Hh2 & _);
    [congruence|lia|exact Hpos| |].
  - intros t Ht; specialize (Hout _ (Hst t Ht)); lia.
  - exists m2; split; [exact E2|]; split; [|rewrite <- St; exact Hh2].
    intros b Hbin; apply Hbs in Hbin.
    unfold staged in Hbin; apply in_map_iff in Hbin as (t & <- & Ht); apply in_upto in Ht.
    apply H2; exact Ht.
Qed.

End Log.

(** ** Concrete runs *)

(** C1: a transaction that passed commit's checksum verification and whose
    header was durably written (crash right after the 4th [bwrite], the
    header write) is not replayed at the next boot: commit stored checksum 1
    (computed over blocks [start+1 .. start+n], i.e. the old header block and
    slot 0), while boot recovery recomputes over [log.lh.n = 0] blocks and
    gets 0; home block 10 keeps its old contents. *)
Lemma commit_then_crash_not_replayed :
  let m' := match commit 512 m_two_staged with Done _ m | Halt _ m => m end in
  let d := crash_disk (disk m_two_staged) (trace m') 4 in
  commit 512 m_two_staged = Done tt m' /\
  checksum (lg m') = 1 /\
  writes (trace m') = [4; 5; 2; 3; 10; 20; 3] /\
  get_u32 (d 2) 0 = 1 /\
  get_int (d 3) 0 = 2 /\ get_int (d 3) 4 = 10 /\ get_int (d 3) 8 = 20 /\
  let mb := match initlog 512 30 1 2 30 (boot d) with Done _ m | Halt _ m => m end in
  initlog 512 30 1 2 30 (boot d) = Done tt mb /\
  writes (trace mb) = [] /\
  In (EvPrint "boot log checksum mismatch, will not commit log." []) (trace mb) /\
  disk mb 10 0 = 0 /\ cache m_two_staged 10 0 = 1.
Proof. vm_compute; repeat split; auto 20. Qed.

(** C6: counterexample.  From an empty transaction in a 30-block log,
    recording blocks 100 .. 127 (28 distinct blocks, [size - 2]) succeeds;
    recording block 127 once more, which adds no distinct block, halts with
    "too big a transaction". *)
Lemma log_write_capacity_counterexample :
  let bs := map (fun i => 100 + i) (upto 28) in
  List.length (nodup Z.eq_dec (bs ++ [127])) = 28%nat /\
  (exists m', log_writes 30 bs m_open = Done tt m') /\
  (exists m', log_writes 30 (bs ++ [127]) m_open = Halt "too big a transaction" m').
Proof.
  split; [vm_compute; reflexivity|].
  split; eexists; vm_compute; reflexivity.
Qed.

(** C8: counterexample.  With no admitted operation but 28 blocks staged,
    [log_write] halts with "too big a transaction", not with
    "log_write outside of trans". *)
Lemma log_write_outside_counterexample :
  outstanding (lg m_full_idle) < 1 /\
  log_write 30 10 m_full_idle = Halt "too big a transaction" m_full_idle.
Proof. split; vm_compute; reflexivity. Qed.

(** ** Witnesses *)

Lemma commit_write_order_witness :
  0 < lh_n (lg m_two_staged) /\
  exists m', commit 512 m_two_staged = Done tt m' /\ lh_n (lg m') = 0 /\
             writes (trace m') = [4; 5; 2; 3; 10; 20; 3].
Proof.
  split; [vm_compute; reflexivity|].
  destruct (commit_write_order 512 m_two_staged) as (m' & E & N & W);
    [vm_compute; reflexivity|].
  exists m'; split; [exact E|split; [exact N|]].
  rewrite W; vm_compute; reflexivity.
Defined.

Lemma commit_empty_noop_witness :
  lh_n (lg m_open) = 0 /\ commit 512 m_open = Done tt m_open.
Proof. split; [reflexivity|apply commit_empty_noop; reflexivity]. Defined.

Lemma log_write_absorption_witness :
  exists m', log_writes 30 (repeat 10 3) m_open = Done tt m' /\
             staged (lg m') = [10] /\
             count_occ Z.eq_dec (staged (lg m')) 10 = 1%nat /\
             lh_n (lg m') = 1.
Proof.
  pose (mr := match log_writes 30 (repeat 10 3) m_open with
              | Done _ m | Halt _ m => m end).
  exists mr.
  assert (E : log_writes 30 (repeat 10 3) m_open = Done tt mr)
    by (vm_compute; reflexivity).
  destruct (log_write_absorption 30 m_open 10 3 mr) as (S & C & N);
    [lia|simpl; lia|vm_compute; apply NoDup_nil|exact E|].
  split; [exact E|]. rewrite S, N; split; [vm_compute; reflexivity|].
  split; [exact C|vm_compute; reflexivity].
Defined.

Lemma log_write_full_panics_witness :
  In 100 (staged (lg m_full_open)) /\
  log_write 30 100 m_full_open = Halt "too big a transaction" m_full_open.
Proof.
  split; [vm_compute; auto|].
  apply log_write_full_panics; right; simpl; lia.
Defined.

Lemma recovery_mismatch_no_replay_witness :
  exists m', recover_from_log 512 m_boot_cs1 = Done tt m' /\
             disk m' = disk_cs1 /\ writes (trace m') = [].
Proof.
  rewrite recovery_mismatch_no_replay by (vm_compute; discriminate).
  eexists; split; [reflexivity|split; reflexivity].
Defined.

Lemma boot_recovery_checksum_zero_witness :
  initlog 512 30 1 2 30 (boot disk_cs1) =
  Done tt (mk_machine (mk_log false 2 30 0 false 1 0 0 (fun _ => 0))
             disk_cs1 disk_cs1 (fun _ => false)
             [EvRead 2; EvPrint "boot log checksum mismatch, will not commit log." []]).
Proof.
  rewrite boot_recovery_checksum_zero by (vm_compute; reflexivity).
  vm_compute; reflexivity.
Defined.


(** Decides a comparison between closed integer terms of the samples. *)
Ltac zdec :=
  vm_compute;
  repeat match goal with
  | H : _ /\ _ |- _ => destruct H
  | H : @eq comparison _ _ |- _ => discriminate H
  | |- _ -> _ => intro
  | |- _ /\ _ => split
  | |- _ = _ => reflexivity
  | |- _ \/ _ => first [left; solve [zdec] | right; solve [zdec]]
  end.

Lemma write_checksum_readback_witness :
  0 < 512 <= 2 ^ 32 /\
  exists m', write_checksum 512 m_two_staged = Done tt m' /\
             get_u32 (disk m' 2) 0 = checksum (lg m').
Proof.
  split; [lia|].
  destruct (write_checksum_readback 512 (lg m_two_staged) (cache m_two_staged)
              (disk m_two_staged) (dirty m_two_staged) (trace m_two_staged))
    as (m' & E & _ & R & _); [lia|].
  exists m'; split; [exact E|exact R].
Defined.

Lemma header_round_trip_witness :
  exists m', (write_head;; read_head) m_two_staged = Done tt m' /\
             head_n (disk m' 3) = 2 /\ head_block (disk m' 3) 1 = 20 /\ lh_n (lg m') = 2.
Proof.
  destruct (header_round_trip 512 30 (lg m_two_staged) (cache m_two_staged)
              (disk m_two_staged) (dirty m_two_staged) (trace m_two_staged))
    as (m' & E & Hn & Hb & blk & HL & _).
  - zdec.
  - zdec.
  - zdec.
  - intros i Hi; assert (i = 0 \/ i = 1) as [-> | ->] by (simpl in Hi; lia);
      zdec.
  - exists m'; split; [exact E|]; split; [exact Hn|]; split.
    + apply (Hb 1); zdec.
    + rewrite HL; reflexivity.
Defined.

Lemma write_log_saves_blocks_witness :
  exists m', write_log m_two_staged = Done tt m' /\ disk m' 4 = home10.
Proof.
  destruct (write_log_saves_blocks (lg m_two_staged) (cache m_two_staged) (disk m_two_staged)
              (dirty m_two_staged) (trace m_two_staged)) as (m' & E & _ & Hs & _).
  - zdec.
  - intros t Ht; assert (t = 0 \/ t = 1) as [-> | ->] by (simpl in Ht; lia);
      zdec.
  - exists m'; split; [exact E|].
    destruct (Hs 0 ltac:(zdec)) as [_ H]; exact H.
Defined.

Lemma install_trans_installs_witness :
  exists m', install_trans m_two_staged = Done tt m' /\ disk m' 10 = zero_block.
Proof.
  destruct (install_trans_installs (lg m_two_staged) (cache m_two_staged) (disk m_two_staged)
              (dirty m_two_staged) (trace m_two_staged)) as (m' & E & _ & Hs & _).
  - zdec.
  - intros t Ht; assert (t = 0 \/ t = 1) as [-> | ->] by (simpl in Ht; lia);
      zdec.
  - intros t t' Ht Ht' Eb.
    assert (t = 0 \/ t = 1) as [-> | ->] by (simpl in Ht; lia);
    assert (t' = 0 \/ t' = 1) as [-> | ->] by (simpl in Ht'; lia);
    vm_compute in Eb; try discriminate Eb; reflexivity.
  - exists m'; split; [exact E|].
    destruct (Hs 0 ltac:(zdec)) as [_ H]; exact H.
Defined.

Lemma commit_installs_transaction_witness :
  exists m', commit 512 m_two_staged = Done tt m' /\ disk m' 10 = home10 /\
             head_n (disk m' 3) = 0.
Proof.
  destruct (commit_installs_transaction 512 (lg m_two_staged) (cache m_two_staged)
              (disk m_two_staged) (dirty m_two_staged) (trace m_two_staged))
    as (m' & cs & E & _ & Hs & Hh).
  - reflexivity.
  - intros t Ht; assert (t = 0 \/ t = 1) as [-> | ->] by (simpl in Ht; lia);
      zdec.
  - exists m'; split; [exact E|]; split; [|exact Hh].
    destruct (Hs 0 ltac:(zdec)) as [H _]; exact H.
Defined.

Lemma recovery_replays_log_witness :
  exists m', recover_from_log 512 m_recover = Done tt m' /\ disk m' 10 = home10 /\
             head_n (disk m' 3) = 0.
Proof.
  assert (Hn : head_n (disk_hdr1 (2 + 1)) = 1) by (vm_compute; reflexivity).
  assert (Hb : head_block (disk_hdr1 (2 + 1)) 0 = 10) by (vm_compute; reflexivity).
  destruct (recovery_replays_log 512 30 (lg m_recover) (cache m_recover) (disk m_recover)
              (dirty m_recover) (trace m_recover)) as (m' & E & Hs & _ & Hh & _);
    cbn [lg cache m_recover start] in *; rewrite ?Hn.
  - zdec.
  - vm_compute; reflexivity.
  - lia.
  - intros t Ht; assert (t = 0) as -> by lia; rewrite Hb; right; lia.
  - intros t t' Ht Ht' _; assert (t = 0) as -> by lia; assert (t' = 0) as -> by lia;
      reflexivity.
  - exists m'; split; [exact E|]; split; [|exact Hh].
    rewrite Hn in Hs; specialize (Hs 0 ltac:(lia)); rewrite Hb in Hs; exact Hs.
Defined.

Lemma end_op_committing_panics_witness :
  committing (lg m_two_staged) = true /\
  exists m', end_op 512 m_two_staged = Halt "log.committing" m'.
Proof.
  split; [reflexivity|].
  eexists; exact (end_op_committing_panics 512 (lg m_two_staged) (cache m_two_staged)
                    (disk m_two_staged) (dirty m_two_staged) (trace m_two_staged) eq_refl).
Defined.

Lemma end_op_not_last_witness :
  exists m', end_op 512 m_two_open = Done tt m' /\ outstanding (lg m') = 1 /\
             trace m' = [] /\ lh_n (lg m') = 1.
Proof.
  pose proof (end_op_not_last 512 (lg m_two_open) (cache m_two_open) (disk m_two_open)
                (dirty m_two_open) (trace m_two_open) eq_refl
                ltac:(vm_compute; discriminate)) as E.
  eexists; split; [exact E|]; split; [reflexivity|split; reflexivity].
Defined.

Lemma end_op_last_commits_witness :
  exists m', end_op 512 m_two_last = Done tt m' /\ disk m' 10 = home10 /\
             outstanding (lg m') = 0 /\ committing (lg m') = false.
Proof.
  destruct (end_op_last_commits 512 (lg m_two_last) (cache m_two_last) (disk m_two_last)
              (dirty m_two_last) (trace m_two_last)) as (m' & E & Hs & _ & _ & Ho & Hc & _).
  - reflexivity.
  - reflexivity.
  - reflexivity.
  - intros t Ht; assert (t = 0 \/ t = 1) as [-> | ->] by (simpl in Ht; lia);
      zdec.
  - exists m'; split; [exact E|]; split; [|split; assumption].
    apply (Hs 0); zdec.
Defined.

Lemma log_write_pins_buffer_witness :
  exists m', log_write 30 10 m_open = Done tt m' /\ dirty m' 10 = true /\
             disk m' = disk m_open /\ trace m' = [].
Proof.
  pose (mr := match log_write 30 10 m_open with Done _ m | Halt _ m => m end).
  assert (E : log_write 30 10 m_open = Done tt mr) by (vm_compute; reflexivity).
  destruct (log_write_pins_buffer 30 (lg m_open) (cache m_open) (disk m_open)
              (dirty m_open) (trace m_open) 10 mr E) as (_ & Hd & Ht & Hdt & _).
  exists mr; split; [exact E|]; split; [exact Hdt|split; [exact Hd|exact Ht]].
Defined.

Lemma transaction_durable_witness :
  exists m1 m2,
    begin_op 30 10 [lg m_recover] = Some (lg m_open) /\
    log_writes 30 [40; 50]
      (mk_machine (lg m_open) (upd (fun _ => zero_block) 40 home10) (fun _ => zero_block) (fun _ => false) [])
      = Done tt m1 /\
    end_op 512 m1 = Done tt m2 /\ disk m2 40 = home10 /\ disk m2 50 = zero_block.
Proof.
  pose (m1 := match log_writes 30 [40; 50]
                      (mk_machine (lg m_open) (upd (fun _ => zero_block) 40 home10) (fun _ => zero_block)
                                  (fun _ => false) [])
              with Done _ m | Halt _ m => m end).
  assert (Eb : begin_op 30 10 [lg m_recover] = Some (lg m_open)) by (vm_compute; reflexivity).
  assert (E1 : log_writes 30 [40; 50]
                 (mk_machine (lg m_open) (upd (fun _ => zero_block) 40 home10) (fun _ => zero_block)
                             (fun _ => false) []) = Done tt m1)
    by (vm_compute; reflexivity).
  destruct (transaction_durable 512 30 10 (lg m_recover) (lg m_open) (upd (fun _ => zero_block) 40 home10)
              (fun _ => zero_block) (fun _ => false) [] [40; 50] m1
              eq_refl eq_refl eq_refl Eb ltac:(discriminate)) as (m2 & E2 & Hd & _).
  - intros b [<- | [<- | []]]; zdec.
  - exact E1.
  - exists m1, m2; split; [exact Eb|]; split; [exact E1|]; split; [exact E2|].
    split; [apply Hd; left; reflexivity|apply Hd; right; left; reflexivity].
Defined.
